(** * httpconnect: the CONNECT tunnel handler of http-proxy

    A shallow embedding of [src/httpconnect/httpconnect.go] and of the
    Go standard-library functions it calls on strings, followed by the
    properties of the handler: construction, port authorization, the
    sequential part of tunnel establishment, and the two-task relay
    with its completion barrier and teardown. *)

From Stdlib Require Import ZArith Ascii String List Bool Lia.
From stdpp Require Import base list strings.
Import ListNotations.

Local Open Scope string_scope.
Local Open Scope Z_scope.
Local Open Scope list_scope.

(** ** Errors and results *)

(** Go error values that occur in the package.  [NumSyntax] and
    [NumRange] are [*strconv.NumError] with [ErrSyntax] resp. [ErrRange];
    [AddrError] is [*net.AddrError]; [ErrorString] is a value of
    [errors.New]; [IOError] stands for any error handed in by the
    network (hijack, dial, copy, close). *)
Inductive error : Type :=
| NumSyntax (fn num : string)
| NumRange (fn num : string)
| AddrError (why addr : string)
| ErrorString (msg : string)
| IOError (code : nat).

(** A Go call returning [(v, err)]: [Ok v] when [err == nil]. *)
Inductive result (A : Type) : Type :=
| Ok (v : A)
| Err (e : error).
Arguments Ok {A} v.
Arguments Err {A} e.

Definition is_ok {A} (r : result A) : bool :=
  match r with Ok _ => true | Err _ => false end.

(** ** Go standard library: strconv *)

Module strconv.

(** [IntSize]: the width of Go's [int] on the 64-bit targets. *)
Definition IntSize : Z := 64.
Definition maxUint64 : Z := 2 ^ 64 - 1.

Definition byte_val (c : ascii) : Z := Z.of_N (N_of_ascii c).

(** The digit loop of [ParseUint] at base 10: a byte outside ['0'..'9']
    is a syntax error; [n >= cutoff] means [n * 10] overflows and
    [n1 > maxVal] that [n + d] overflows 64 bits, both range errors
    that return the largest value. *)
Fixpoint digits_loop (s0 s : string) (maxVal n : Z) : Z * option error :=
  match s with
  | EmptyString => (n, None)
  | String c rest =>
      let v := byte_val c in
      if (48 <=? v) && (v <=? 57) then
        let d := v - 48 in
        let cutoff := maxUint64 / 10 + 1 in
        if cutoff <=? n then (maxVal, Some (NumRange "ParseUint" s0))
        else
          let n1 := n * 10 + d in
          if maxVal <? n1 then (maxVal, Some (NumRange "ParseUint" s0))
          else digits_loop s0 rest maxVal n1
      else (0, Some (NumSyntax "ParseUint" s0))
  end.

Definition ParseUint10 (s : string) (bitSize : Z) : Z * option error :=
  match s with
  | EmptyString => (0, Some (NumSyntax "ParseUint" s))
  | _ =>
      let bitSize := if bitSize =? 0 then IntSize else bitSize in
      digits_loop s s (2 ^ bitSize - 1) 0
  end.

(** The second half of [ParseInt]: what it makes of the pair that
    [ParseUint] returned for the text after the sign.  An error other
    than the range error is passed on; otherwise the magnitude is
    checked against [1 << (bitSize-1)] and given its sign. *)
Definition signed_result (s0 : string) (neg : bool) (bitSize : Z)
    (p : Z * option error) : Z * option error :=
  let '(un, err) := p in
  match err with
  | None | Some (NumRange _ _) =>
      let bitSize := if bitSize =? 0 then IntSize else bitSize in
      let cutoff := 2 ^ (bitSize - 1) in
      if negb neg && (cutoff <=? un) then
        (cutoff - 1, Some (NumRange "ParseInt" s0))
      else if neg && (cutoff <? un) then
        (- cutoff, Some (NumRange "ParseInt" s0))
      else (if neg then - un else un, None)
  | Some _ => (0, Some (NumSyntax "ParseInt" s0))
  end.

(** [ParseInt(s, 10, bitSize)]. *)
Definition ParseInt10 (s0 : string) (bitSize : Z) : Z * option error :=
  match s0 with
  | EmptyString => (0, Some (NumSyntax "ParseInt" s0))
  | String c rest =>
      if Ascii.eqb c "+" then
        signed_result s0 false bitSize (ParseUint10 rest bitSize)
      else if Ascii.eqb c "-" then
        signed_result s0 true bitSize (ParseUint10 rest bitSize)
      else signed_result s0 false bitSize (ParseUint10 s0 bitSize)
  end.

(** [Atoi(s)] is [ParseInt(s, 10, 0)] with the error renamed; its fast
    path for short inputs computes the same value. *)
Definition Atoi (s : string) : result Z :=
  match ParseInt10 s 0 with
  | (i64, None) => Ok i64
  | (_, Some (NumSyntax _ num)) => Err (NumSyntax "Atoi" num)
  | (_, Some (NumRange _ num)) => Err (NumRange "Atoi" num)
  | (_, Some e) => Err e
  end.

End strconv.

(** ** Go standard library: strings *)

Module strings.

(** [Split(s, sep)] for a separator of one byte, which is how the
    package calls it: the pieces of [s] between the occurrences of
    [sep]; always one piece more than there are separators. *)
Fixpoint Split (s : string) (sep : ascii) : list string :=
  match s with
  | EmptyString => [EmptyString]
  | String c rest =>
      if Ascii.eqb c sep then EmptyString :: Split rest sep
      else
        match Split rest sep with
        | [] => [String c EmptyString]
        | piece :: pieces => String c piece :: pieces
        end
  end.

(** [IndexByte(s, c)]: position of the first [c], if any. *)
Fixpoint IndexByte (s : string) (c : ascii) : option nat :=
  match s with
  | EmptyString => None
  | String x rest =>
      if Ascii.eqb x c then Some O
      else match IndexByte rest c with
           | Some i => Some (S i)
           | None => None
           end
  end.

(** [LastIndexByte(s, c)]: position of the last [c], if any. *)
Fixpoint LastIndexByte (s : string) (c : ascii) : option nat :=
  match s with
  | EmptyString => None
  | String x rest =>
      match LastIndexByte rest c with
      | Some i => Some (S i)
      | None => if Ascii.eqb x c then Some O else None
      end
  end.

(** The slice [s[i:]]. *)
Fixpoint drop (i : nat) (s : string) : string :=
  match i, s with
  | O, _ => s
  | S i', String _ rest => drop i' rest
  | S _, EmptyString => EmptyString
  end.

(** The slice [s[:i]]. *)
Fixpoint take (i : nat) (s : string) : string :=
  match i, s with
  | O, _ => EmptyString
  | S i', String c rest => String c (take i' rest)
  | S _, EmptyString => EmptyString
  end.

End strings.

(** ** Go standard library: net.SplitHostPort *)

Module net.

Import strings.

Definition missingPort : string := "missing port in address".
Definition tooManyColons : string := "too many colons in address".

Definition contains (s : string) (c : ascii) : bool :=
  match IndexByte s c with Some _ => true | None => false end.

(** [SplitHostPort]: the port starts after the last colon; a host in
    brackets must end just before that colon; a bare host has no colon;
    no bracket is left over. *)
Definition SplitHostPort (hostport : string) : result (string * string) :=
  match LastIndexByte hostport ":" with
  | None => Err (AddrError missingPort hostport)
  | Some i =>
      let tail (host : string) (j k : nat) :=
        if contains (drop j hostport) "[" then
          Err (AddrError "unexpected '[' in address" hostport)
        else if contains (drop k hostport) "]" then
          Err (AddrError "unexpected ']' in address" hostport)
        else Ok (host, drop (S i) hostport) in
      match hostport with
      | String "[" _ =>
          match IndexByte hostport "]" with
          | None => Err (AddrError "missing ']' in address" hostport)
          | Some e =>
              if Nat.eqb (S e) (String.length hostport) then
                Err (AddrError missingPort hostport)
              else if Nat.eqb (S e) i then
                tail (take (e - 1) (drop 1 hostport)) 1%nat (S e)
              else if
                match String.get (S e) hostport with
                | Some c => Ascii.eqb c ":"
                | None => false
                end
              then Err (AddrError tooManyColons hostport)
              else Err (AddrError missingPort hostport)
          end
      | _ =>
          let host := take i hostport in
          if contains host ":" then Err (AddrError tooManyColons hostport)
          else tail host O O
      end
  end.

End net.

(** ** The handler: data *)

(** [time.Duration], in nanoseconds. *)
Definition Duration : Type := Z.
Definition Second : Duration := 1000000000.

(** A non-nil [http.Handler] value, known by its identity only. *)
Definition Handler : Type := nat.

(** A live [net.Conn]: a socket, or the wrapper that [idletiming.Conn]
    puts around one. *)
Inductive Conn : Type :=
| NetConn (id : nat)
| IdleTimingConn (raw : Conn) (timeout : Duration).

Record Request : Type := mkRequest {
  Method : string;
  Host : string
}.

(** An [http.ResponseWriter].  [Hijacker] is [None] when the dynamic
    type does not implement [http.Hijacker]; otherwise it holds what
    [Hijack()] returns. *)
Record ResponseWriter : Type := mkResponseWriter {
  wid : nat;
  Hijacker : option (result Conn)
}.

(** What the handler consults outside itself: the level of the
    package logger and the network behind [net.DialTimeout]. *)
Record World : Type := mkWorld {
  IsTraceEnabled : bool;
  DialTimeout : string -> string -> Duration -> result Conn
}.

Record HTTPConnectHandler : Type := mkHandler {
  next : Handler;
  idleTimeout : Duration;
  allowedPorts : list Z
}.

(** ** Observable effects *)

Inductive level : Type := LTrace | LDebug | LError.

(** Arguments of a formatted message. *)
Inductive arg : Type :=
| AStr (s : string)
| AInt (n : Z)
| AInts (l : list Z)
| AErr (e : error)
| AReq (r : Request).

Inductive event : Type :=
| NextServeHTTP (h : Handler) (w : ResponseWriter) (req : Request)
| Log (l : level) (format : string) (args : list arg)
| OpEnter (name : string)
| OpExit
| OpErrorf (format : string) (args : list arg)
| WriteHeader (status : Z)
| Fprintf (format : string) (reason : string)
| Respond (status : Z) (body : option (string * list arg))
| HijackCall (r : result Conn)
| DialCall (network addr : string) (timeout : Duration) (r : result Conn)
| IdleTimingWrap (raw : Conn) (timeout : Duration).

(** How the sequential part of a call ends: it returns, it panics, or
    it enters the relay with the hijacked client connection, the dialed
    socket and the idle timeout put around the latter. *)
Inductive outcome : Type :=
| Returned
| Panicked
| Tunnel (clientConn connOutRaw : Conn) (timeout : Duration).

Definition StatusOK : Z := 200.
Definition StatusBadRequest : Z := 400.
Definition StatusForbidden : Z := 403.
Definition StatusBadGateway : Z := 502.

(** ** Construction *)

(** An option setter mutates the handler under construction and
    returns an error or nil. *)
Definition optSetter : Type :=
  HTTPConnectHandler -> HTTPConnectHandler * option error.

Definition IdleTimeoutSetter (i : Duration) : optSetter :=
  fun f => (mkHandler (next f) i (allowedPorts f), None).

Definition AllowedPorts (ports : list Z) : optSetter :=
  fun f => (mkHandler (next f) (idleTimeout f) ports, None).

(** The loop of [AllowedPortsFromCSV]: [ports[i] = p] for each field in
    turn, leaving at the first field that [Atoi] rejects. *)
Fixpoint csv_loop (fields : list string) (i : nat) (ports : list Z)
  : result (list Z) :=
  match fields with
  | [] => Ok ports
  | fld :: rest =>
      match strconv.Atoi fld with
      | Err e => Err e
      | Ok p => csv_loop rest (S i) (<[i:=p]> ports)
      end
  end.

Definition AllowedPortsFromCSV (csv : string) : optSetter :=
  fun f =>
    let fields := strings.Split csv "," in
    let ports := replicate (length fields) 0 in
    match csv_loop fields O ports with
    | Err e => (f, Some e)
    | Ok ports => (mkHandler (next f) (idleTimeout f) ports, None)
    end.

Fixpoint apply_setters (setters : list optSetter) (f : HTTPConnectHandler)
  : option HTTPConnectHandler * option error :=
  match setters with
  | [] => (Some f, None)
  | s :: rest =>
      let '(f', err) := s f in
      match err with
      | Some e => (None, Some e)
      | None => apply_setters rest f'
      end
  end.

(** [New(next, setters...)]: the pair [(handler, err)] it returns; a nil
    [next] is [None]. *)
Definition New (next : option Handler) (setters : list optSetter)
  : option HTTPConnectHandler * option error :=
  match next with
  | None => (None, Some (ErrorString "Next handler is not defined (nil)"))
  | Some n => apply_setters setters (mkHandler n 0 [])
  end.

(** ** Serving a request *)

Definition ServeError (f : HTTPConnectHandler) (w : ResponseWriter)
    (req : Request) (statusCode : Z) (reason : string) : list event :=
  [ OpErrorf "Respond error to CONNECT request to %s: %d %v"
      [AStr (Host req); AInt statusCode; AStr reason];
    Log LError "Respond error to CONNECT request to %s: %d %v"
      [AStr (Host req); AInt statusCode; AStr reason];
    WriteHeader statusCode;
    Fprintf "%v" reason ].

(** The [for _, p := range f.allowedPorts] loop of [portAllowed]. *)
Fixpoint port_in (port : Z) (ports : list Z) : bool :=
  match ports with
  | [] => false
  | p :: rest => if port =? p then true else port_in port rest
  end.

Definition checking (f : HTTPConnectHandler) (req : Request) : event :=
  Log LTrace "Checking CONNECT tunnel to %s against allowed ports %v"
    [AStr (Host req); AInts (allowedPorts f)].

Definition portAllowed (f : HTTPConnectHandler) (w : ResponseWriter)
    (req : Request) : list event * bool :=
  match allowedPorts f with
  | [] => ([], true)
  | _ :: _ =>
      let checking := checking f req in
      match net.SplitHostPort (Host req) with
      | Err _ =>
          (checking :: ServeError f w req StatusBadRequest
                         "No port field in Request-URI / Host header",
           false)
      | Ok (_, portString) =>
          match strconv.Atoi portString with
          | Err _ =>
              (checking :: ServeError f w req StatusBadRequest "Invalid port",
               false)
          | Ok port =>
              if port_in port (allowedPorts f) then ([checking], true)
              else
                (checking :: ServeError f w req StatusForbidden
                               "Port not allowed",
                 false)
          end
      end
  end.

(** Modelled from the spec: [utils.RespondOK], of this repository but
    not among the sources; the success response of the tunnelling
    handshake, a 2xx status with no body, sent before the hijack. *)
Definition RespondOK (w : ResponseWriter) (req : Request) : list event :=
  [Respond StatusOK None].

(** Modelled from the spec: [utils.RespondBadGateway], of this
    repository but not among the sources; the failure response, status
    502 with the description of the error. *)
Definition RespondBadGateway (w : ResponseWriter) (req : Request)
    (desc : string * list arg) : list event :=
  [Respond StatusBadGateway (Some desc)].

(** [intercept] up to the relay.  The assertion [w.(http.Hijacker)] has
    no comma-ok form, so it panics on a writer that is no hijacker. *)
Definition intercept (f : HTTPConnectHandler) (world : World)
    (w : ResponseWriter) (req : Request) : list event * outcome :=
  let ok := RespondOK w req in
  match Hijacker w with
  | None => (ok, Panicked)
  | Some (Err err) =>
      let desc := ("Unable to hijack connection: %s", [AErr err]) in
      (ok ++ [HijackCall (Err err); OpErrorf (fst desc) (snd desc)]
          ++ RespondBadGateway w req desc,
       Returned)
  | Some (Ok clientConn) =>
      let dialed := DialTimeout world "tcp" (Host req) (10 * Second) in
      let dial := DialCall "tcp" (Host req) (10 * Second) dialed in
      match dialed with
      | Err err =>
          (ok ++ [HijackCall (Ok clientConn); dial;
                  OpErrorf "Unable to dial %v: %v" [AStr (Host req); AErr err]],
           Returned)
      | Ok connOutRaw =>
          (ok ++ [HijackCall (Ok clientConn); dial;
                  IdleTimingWrap connOutRaw (idleTimeout f)],
           Tunnel clientConn connOutRaw (idleTimeout f))
      end
  end.

(** The start of [ServeHTTP] on a CONNECT request: the dump of the
    request when the trace level is on, then [ops.Enter]. *)
Definition received (world : World) (req : Request) : list event :=
  (if IsTraceEnabled world then
     [Log LTrace "HTTPConnectHandler Middleware received request:\n%s"
        [AReq req]]
   else [])
  ++ [OpEnter "proxy_https"].

(** [ServeHTTP].  The deferred [op.Exit()] runs when the call returns or
    panics; when the outcome is [Tunnel] the call goes on with the relay
    (module [Relay]) and the events listed are those before it. *)
Definition ServeHTTP (f : HTTPConnectHandler) (world : World)
    (w : ResponseWriter) (req : Request) : list event * outcome :=
  if negb (String.eqb (Method req) "CONNECT") then
    ([NextServeHTTP (next f) w req], Returned)
  else
    let enter := received world req in
    let '(checked, allowed) := portAllowed f w req in
    if allowed then
      let '(evs, out) := intercept f world w req in
      match out with
      | Tunnel _ _ _ => (enter ++ checked ++ evs, out)
      | _ => (enter ++ checked ++ evs ++ [OpExit], out)
      end
    else (enter ++ checked ++ [OpExit], Returned).

(** ** The relay: two copy tasks, a completion barrier, the teardown *)

Module Relay.

(** Who performs a step: the calling path of [intercept], the task
    started by [op.Go], or the idle-timeout guard of the outbound
    connection running its callback. *)
Inductive thread : Type := Caller | Upload | IdleGuard.

Inductive op : Type :=
| WgAdd (n : Z)
| Spawn
| BufGet
| BufPut
| CopyStart (dst src : Conn)
| CopyReturn (dst src : Conn) (err : option error)
| Debug (format : string) (err : error)
| WgDone
| WgWaitReturn
| Close (c : Conn) (err : option error).

Definition revent : Type := thread * op.

(** Control points of the calling path, in program order. *)
Inductive caller_pc : Type :=
| CAdd | CGo | CGet | CCopy | CCopying | CLogWrite | CWait
| CCloseClient | CLogCloseClient | CCloseOut | CLogCloseOut
| CPut | CReturned.

(** Control points of the upload task. *)
Inductive upload_pc : Type :=
| UNotStarted | UGet | UCopy | UCopying | ULogRead | UDone | UPut
| UFinished.

(** The session: both control points, the counter of the wait group
    [readFinished], the error variables of the two tasks and of
    [closeConns], and the events so far, oldest first. *)
Record state : Type := mkState {
  cpc : caller_pc;
  upc : upload_pc;
  readFinished : Z;
  writeErr : option error;
  readErr : option error;
  closeErrClient : option error;
  closeErrOut : option error;
  log : list revent
}.

(** A scheduling choice: the thread that moves, and the error or nil
    that the environment returns if the move is the return of a copy
    or a close. *)
Inductive action : Type := Run (t : thread) (r : option error).

Definition init : state :=
  mkState CAdd UNotStarted 0 None None None None [].

Definition is_nil (r : option error) : bool :=
  match r with None => true | Some _ => false end.

Section Session.

Variables (clientConn connOutRaw : Conn) (timeout : Duration).

Definition connOut : Conn := IdleTimingConn connOutRaw timeout.

(** One step of the calling path.  [clientConn] and [connOut] are the
    live connections that [Hijack] and [idletiming.Conn] returned, so the
    nil tests of [closeConns] pass and both closes are issued. *)
Definition caller_step (r : option error) (s : state) : option state :=
  let '(mkState pc u wg we re e1 e2 l) := s in
  match pc with
  | CAdd => Some (mkState CGo u (wg + 1) we re e1 e2 (l ++ [(Caller, WgAdd 1)]))
  | CGo =>
      match u with
      | UNotStarted =>
          Some (mkState CGet UGet wg we re e1 e2 (l ++ [(Caller, Spawn)]))
      | _ => None
      end
  | CGet => Some (mkState CCopy u wg we re e1 e2 (l ++ [(Caller, BufGet)]))
  | CCopy =>
      Some (mkState CCopying u wg we re e1 e2
              (l ++ [(Caller, CopyStart clientConn connOut)]))
  | CCopying =>
      Some (mkState (if is_nil r then CWait else CLogWrite) u wg r re e1 e2
              (l ++ [(Caller, CopyReturn clientConn connOut r)]))
  | CLogWrite =>
      match we with
      | Some e =>
          Some (mkState CWait u wg we re e1 e2
                  (l ++ [(Caller, Debug "Unable to write to origin: %v" e)]))
      | None => None
      end
  | CWait =>
      if wg =? 0 then
        Some (mkState CCloseClient u wg we re e1 e2
                (l ++ [(Caller, WgWaitReturn)]))
      else None
  | CCloseClient =>
      Some (mkState (if is_nil r then CCloseOut else CLogCloseClient)
              u wg we re r e2 (l ++ [(Caller, Close clientConn r)]))
  | CLogCloseClient =>
      match e1 with
      | Some e =>
          Some (mkState CCloseOut u wg we re e1 e2
                  (l ++ [(Caller,
                          Debug "Error closing the out connection: %s" e)]))
      | None => None
      end
  | CCloseOut =>
      Some (mkState (if is_nil r then CPut else CLogCloseOut)
              u wg we re e1 r (l ++ [(Caller, Close connOut r)]))
  | CLogCloseOut =>
      match e2 with
      | Some e =>
          Some (mkState CPut u wg we re e1 e2
                  (l ++ [(Caller,
                          Debug "Error closing the client connection: %s" e)]))
      | None => None
      end
  | CPut => Some (mkState CReturned u wg we re e1 e2 (l ++ [(Caller, BufPut)]))
  | CReturned => None
  end.

Definition upload_step (r : option error) (s : state) : option state :=
  let '(mkState pc u wg we re e1 e2 l) := s in
  match u with
  | UNotStarted => None
  | UGet => Some (mkState pc UCopy wg we re e1 e2 (l ++ [(Upload, BufGet)]))
  | UCopy =>
      Some (mkState pc UCopying wg we re e1 e2
              (l ++ [(Upload, CopyStart connOut clientConn)]))
  | UCopying =>
      Some (mkState pc (if is_nil r then UDone else ULogRead) wg we r e1 e2
              (l ++ [(Upload, CopyReturn connOut clientConn r)]))
  | ULogRead =>
      match re with
      | Some e =>
          Some (mkState pc UDone wg we re e1 e2
                  (l ++ [(Upload, Debug "Unable to read from origin: %v" e)]))
      | None => None
      end
  | UDone => Some (mkState pc UPut (wg - 1) we re e1 e2 (l ++ [(Upload, WgDone)]))
  | UPut => Some (mkState pc UFinished wg we re e1 e2 (l ++ [(Upload, BufPut)]))
  | UFinished => None
  end.

(** The callback handed to [idletiming.Conn] closes the raw outbound
    socket; the guard may run it at any moment. *)
Definition guard_step (r : option error) (s : state) : option state :=
  let '(mkState pc u wg we re e1 e2 l) := s in
  Some (mkState pc u wg we re e1 e2 (l ++ [(IdleGuard, Close connOutRaw r)])).

Definition step (a : action) (s : state) : option state :=
  match a with
  | Run Caller r => caller_step r s
  | Run Upload r => upload_step r s
  | Run IdleGuard r => guard_step r s
  end.

(** Running a schedule; [None] when it asks a thread to move that
    cannot (blocked in [Wait], not started, or finished). *)
Fixpoint exec (sched : list action) (s : state) : option state :=
  match sched with
  | [] => Some s
  | a :: rest =>
      match step a s with
      | Some s' => exec rest s'
      | None => None
      end
  end.

(** *** What the session has done, by thread *)

Definition thread_eqb (a b : thread) : bool :=
  match a, b with
  | Caller, Caller | Upload, Upload | IdleGuard, IdleGuard => true
  | _, _ => false
  end.

Definition ops_of (t : thread) (l : list revent) : list op :=
  map snd (List.filter (fun e => thread_eqb (fst e) t) l).

Definition debug_of (format : string) (r : option error) : list op :=
  match r with
  | Some e => [Debug format e]
  | None => []
  end.


(** The events of the teardown: a close issued by the calling path. *)
Definition is_teardown_close (e : revent) : Prop :=
  exists c r, e = (Caller, Close c r).

Definition upload_signalled (l : list revent) : Prop :=
  In (Upload, WgDone) l.

Definition upload_copy_returned (l : list revent) : Prop :=
  exists r, In (Upload, CopyReturn connOut clientConn r) l.

Definition download_copy_returned (l : list revent) : Prop :=
  exists r, In (Caller, CopyReturn clientConn connOut r) l.

Fixpoint Conn_eqb (a b : Conn) : bool :=
  match a, b with
  | NetConn i, NetConn j => Nat.eqb i j
  | IdleTimingConn x t, IdleTimingConn y u => Conn_eqb x y && (t =? u)
  | _, _ => false
  end.

Definition closes (c : Conn) (o : op) : bool :=
  match o with
  | Close c' _ => Conn_eqb c' c
  | _ => false
  end.

(** How often the relay itself has closed [c]. *)
Definition closes_of (c : Conn) (l : list revent) : nat :=
  length (List.filter (closes c) (ops_of Caller l)).

(** *** Program order, for the invariant *)

Definition caller_pcs : list caller_pc :=
  [CAdd; CGo; CGet; CCopy; CCopying; CLogWrite; CWait; CCloseClient;
   CLogCloseClient; CCloseOut; CLogCloseOut; CPut].

Definition crank (pc : caller_pc) : nat :=
  match pc with
  | CAdd => 0 | CGo => 1 | CGet => 2 | CCopy => 3 | CCopying => 4
  | CLogWrite => 5 | CWait => 6 | CCloseClient => 7
  | CLogCloseClient => 8 | CCloseOut => 9 | CLogCloseOut => 10
  | CPut => 11 | CReturned => 12
  end%nat.

(** What the calling path emits when it leaves a control point. *)
Definition caller_seg (we e1 e2 : option error) (pc : caller_pc)
  : list op :=
  match pc with
  | CAdd => [WgAdd 1]
  | CGo => [Spawn]
  | CGet => [BufGet]
  | CCopy => [CopyStart clientConn connOut]
  | CCopying => [CopyReturn clientConn connOut we]
  | CLogWrite => debug_of "Unable to write to origin: %v" we
  | CWait => [WgWaitReturn]
  | CCloseClient => [Close clientConn e1]
  | CLogCloseClient => debug_of "Error closing the out connection: %s" e1
  | CCloseOut => [Close connOut e2]
  | CLogCloseOut => debug_of "Error closing the client connection: %s" e2
  | CPut => [BufPut]
  | CReturned => []
  end.

Definition caller_hist (s : state) : list op :=
  flat_map (caller_seg (writeErr s) (closeErrClient s) (closeErrOut s))
    (take (crank (cpc s)) caller_pcs).

Definition upload_pcs : list upload_pc :=
  [UNotStarted; UGet; UCopy; UCopying; ULogRead; UDone; UPut].

Definition urank (pc : upload_pc) : nat :=
  match pc with
  | UNotStarted => 0 | UGet => 1 | UCopy => 2 | UCopying => 3
  | ULogRead => 4 | UDone => 5 | UPut => 6 | UFinished => 7
  end%nat.

Definition upload_seg (re : option error) (pc : upload_pc) : list op :=
  match pc with
  | UNotStarted => []
  | UGet => [BufGet]
  | UCopy => [CopyStart connOut clientConn]
  | UCopying => [CopyReturn connOut clientConn re]
  | ULogRead => debug_of "Unable to read from origin: %v" re
  | UDone => [WgDone]
  | UPut => [BufPut]
  | UFinished => []
  end.

Definition upload_hist (s : state) : list op :=
  flat_map (upload_seg (readErr s)) (take (urank (upc s)) upload_pcs).

(** The control points agree with each other, with the counter and
    with the error variables. *)
Definition coherent (s : state) : bool :=
  (readFinished s =?
     if Nat.eqb (crank (cpc s)) 0 then 0
     else if Nat.leb (urank (upc s)) 5 then 1 else 0)
  && Bool.eqb (Nat.eqb (urank (upc s)) 0) (Nat.leb (crank (cpc s)) 1)
  && (Nat.leb (crank (cpc s)) 6 || Nat.ltb 5 (urank (upc s)))
  && match cpc s with
     | CLogWrite => negb (is_nil (writeErr s))
     | CLogCloseClient => negb (is_nil (closeErrClient s))
     | CLogCloseOut => negb (is_nil (closeErrOut s))
     | _ => true
     end
  && match upc s with
     | ULogRead => negb (is_nil (readErr s))
     | _ => true
     end.

(** Every close of the teardown comes after the completion signal of
    the upload task and after the return of both copies. *)
Definition closes_after_copies (l : list revent) : Prop :=
  forall older e newer,
    l = older ++ e :: newer ->
    is_teardown_close e ->
    upload_signalled older /\ upload_copy_returned older
    /\ download_copy_returned older.

Record Inv (s : state) : Prop := mkInv {
  inv_caller : ops_of Caller (log s) = caller_hist s;
  inv_upload : ops_of Upload (log s) = upload_hist s;
  inv_coherent : coherent s = true;
  inv_order : closes_after_copies (log s)
}.

(** A schedule that runs the session to the end: the upload task
    first, then the calling path, with the given results. *)
Definition full_schedule (re we e1 e2 : option error) : list action :=
  [Run Caller None; Run Caller None; Run Upload None; Run Upload None;
   Run Upload re]
  ++ (if is_nil re then [] else [Run Upload None])
  ++ [Run Upload None; Run Upload None; Run Caller None; Run Caller None;
      Run Caller we]
  ++ (if is_nil we then [] else [Run Caller None])
  ++ [Run Caller None; Run Caller e1]
  ++ (if is_nil e1 then [] else [Run Caller None])
  ++ [Run Caller e2]
  ++ (if is_nil e2 then [] else [Run Caller None])
  ++ [Run Caller None].

End Session.

End Relay.

(** ** A whole session *)

(** The sequential part followed, when it ends in [Tunnel], by a run of
    the relay under the schedule; without a tunnel there is nothing to
    schedule and the relay state is the initial, empty one. *)
Definition session (f : HTTPConnectHandler) (world : World)
    (w : ResponseWriter) (req : Request) (sched : list Relay.action)
  : option (list event * outcome * Relay.state) :=
  let '(evs, out) := ServeHTTP f world w req in
  match out with
  | Tunnel clientConn connOutRaw timeout =>
      match Relay.exec clientConn connOutRaw timeout sched Relay.init with
      | Some s => Some (evs, out, s)
      | None => None
      end
  | _ =>
      match sched with
      | [] => Some (evs, out, Relay.init)
      | _ :: _ => None
      end
  end.

(** ** Vocabulary of the properties *)

Definition is_hijack (e : event) : bool :=
  match e with HijackCall _ => true | _ => false end.

Definition is_dial (e : event) : bool :=
  match e with DialCall _ _ _ _ => true | _ => false end.

(** A status line written to the client with an error status. *)
Definition is_error_response (e : event) : bool :=
  match e with
  | WriteHeader status | Respond status _ => 400 <=? status
  | _ => false
  end.

Definition is_digit (c : ascii) : bool :=
  (48 <=? strconv.byte_val c) && (strconv.byte_val c <=? 57).

(** The number that a string of decimal digits denotes, after [acc]. *)
Fixpoint digits_value (s : string) (acc : Z) : option Z :=
  match s with
  | EmptyString => Some acc
  | String c rest =>
      if is_digit c then digits_value rest (acc * 10 + (strconv.byte_val c - 48))
      else None
  end.

Definition unsigned_literal (s : string) : option Z :=
  match s with
  | EmptyString => None
  | _ => digits_value s 0
  end.

(** A decimal integer literal: one or more digits after an optional
    sign, and nothing else. *)
Definition int_literal (s : string) : option Z :=
  match s with
  | EmptyString => None
  | String c rest =>
      if Ascii.eqb c "+" then unsigned_literal rest
      else if Ascii.eqb c "-" then option_map Z.opp (unsigned_literal rest)
      else unsigned_literal s
  end.

(** A numeric entry: an integer literal whose value [int] can hold. *)
Definition numeric (s : string) : Prop :=
  exists v, int_literal s = Some v /\ - 2 ^ 63 <= v <= 2 ^ 63 - 1.

(** ** Sample values *)

Definition sample_world (dial : result Conn) : World :=
  mkWorld false (fun _ _ _ => dial).

Definition sample_writer (hijack : option (result Conn)) : ResponseWriter :=
  mkResponseWriter 1 hijack.

Definition connect_to (host : string) : Request := mkRequest "CONNECT" host.

Definition sample_handler (ports : list Z) : HTTPConnectHandler :=
  mkHandler 7%nat (30 * Second) ports.

(** ** Vocabulary of the further properties *)

(** The number of bytes of [s] equal to [c]. *)
Fixpoint count_byte (s : string) (c : ascii) : nat :=
  match s with
  | EmptyString => O
  | String x rest =>
      if Ascii.eqb x c then S (count_byte rest c) else count_byte rest c
  end.

(** A text without colon and without bracket: a host name, an IPv4
    address, a port. *)
Definition plain (s : string) : bool :=
  negb (net.contains s ":") && negb (net.contains s "[")
  && negb (net.contains s "]").

(** The target [host:port] of a CONNECT request. *)
Definition target (host port : string) : string :=
  host +:+ String ":" port.

(** The bytes of which a string of integers and commas is made. *)
Definition csv_byte (c : ascii) : bool :=
  is_digit c || Ascii.eqb c "+" || Ascii.eqb c "-" || Ascii.eqb c ",".

(** The three option setters that the package exports. *)
Definition package_setter (s : optSetter) : Prop :=
  (exists i, s = IdleTimeoutSetter i)
  \/ (exists ports, s = AllowedPorts ports)
  \/ (exists csv, s = AllowedPortsFromCSV csv).

(** The status that an event puts on the wire, if it is a status line. *)
Definition status_of (e : event) : option Z :=
  match e with
  | WriteHeader status | Respond status _ => Some status
  | _ => None
  end.

(** How many moves a schedule asks of a thread. *)
Fixpoint count_actions (t : Relay.thread) (sched : list Relay.action) : nat :=
  match sched with
  | [] => O
  | Relay.Run t' _ :: rest =>
      if Relay.thread_eqb t' t then S (count_actions t rest)
      else count_actions t rest
  end.

(** Everything the upload task does when its copy returns [re]. *)
Definition upload_script (clientConn connOutRaw : Conn) (timeout : Duration)
    (re : option error) : list Relay.op :=
  [Relay.BufGet;
   Relay.CopyStart (Relay.connOut connOutRaw timeout) clientConn;
   Relay.CopyReturn (Relay.connOut connOutRaw timeout) clientConn re]
  ++ Relay.debug_of "Unable to read from origin: %v" re
  ++ [Relay.WgDone; Relay.BufPut].

Definition is_get (o : Relay.op) : bool :=
  match o with Relay.BufGet => true | _ => false end.

Definition is_put (o : Relay.op) : bool :=
  match o with Relay.BufPut => true | _ => false end.

(** Buffers that a thread has taken from the pool and not yet put back. *)
Definition borrowed (t : Relay.thread) (l : list Relay.revent) : Z :=
  Z.of_nat (length (List.filter is_get (Relay.ops_of t l)))
  - Z.of_nat (length (List.filter is_put (Relay.ops_of t l))).

(** * Properties *)

(** ** strconv.Atoi accepts exactly the integer literals that fit *)

Lemma digits_value_lower (s : string) :
  forall n v, 0 <= n -> digits_value s n = Some v -> n <= v.
Proof.
  induction s as [|c rest IH]; simpl; intros n v Hn H.
  - injection H as <-. lia.
  - unfold is_digit in H.
    destruct (48 <=? strconv.byte_val c) eqn:H1; simpl in H; try discriminate.
    destruct (strconv.byte_val c <=? 57) eqn:H2; try discriminate.
    apply Z.leb_le in H1. apply IH in H; lia.
Qed.

(** The digit loop of [ParseUint] against the plain value of the digits:
    it fails on a non-digit or an overflow, and otherwise returns the
    value when that fits 64 bits and the range error when it does not. *)
Lemma digits_loop_spec (s0 s : string) :
  forall n, 0 <= n <= 2 ^ 64 - 1 ->
    match digits_value s n with
    | None =>
        strconv.digits_loop s0 s (2 ^ 64 - 1) n
        = (0, Some (NumSyntax "ParseUint" s0))
        \/ strconv.digits_loop s0 s (2 ^ 64 - 1) n
           = (2 ^ 64 - 1, Some (NumRange "ParseUint" s0))
    | Some v =>
        strconv.digits_loop s0 s (2 ^ 64 - 1) n =
        if v <=? 2 ^ 64 - 1 then (v, None)
        else (2 ^ 64 - 1, Some (NumRange "ParseUint" s0))
    end.
Proof.
  change (2 ^ 64 - 1) with 18446744073709551615.
  induction s as [|c rest IH]; simpl; intros n Hn.
  - destruct (Z.leb_spec n 18446744073709551615); [reflexivity | lia].
  - unfold is_digit.
    destruct (Z.leb_spec 48 (strconv.byte_val c)) as [H1|H1]; simpl;
      [|auto].
    destruct (Z.leb_spec (strconv.byte_val c) 57) as [H2|H2]; [|auto].
    change (strconv.maxUint64 / 10 + 1) with 1844674407370955162.
    set (n1 := n * 10 + (strconv.byte_val c - 48)).
    destruct (Z.leb_spec 1844674407370955162 n) as [Hc|Hc].
    { destruct (digits_value rest n1) as [v|] eqn:Hv; [|auto].
      apply digits_value_lower in Hv; [|lia].
      destruct (Z.leb_spec v 18446744073709551615); [lia | reflexivity]. }
    destruct (Z.ltb_spec 18446744073709551615 n1) as [Ho|Ho].
    { destruct (digits_value rest n1) as [v|] eqn:Hv; [|auto].
      apply digits_value_lower in Hv; [|lia].
      destruct (Z.leb_spec v 18446744073709551615); [lia | reflexivity]. }
    apply IH. lia.
Qed.

Lemma unsigned_literal_nonneg (s : string) (v : Z) :
  unsigned_literal s = Some v -> 0 <= v.
Proof.
  destruct s; [discriminate|]. unfold unsigned_literal.
  apply digits_value_lower. lia.
Qed.

(** [ParseUint(s, 10, 0)] against [unsigned_literal]. *)
Lemma ParseUint10_spec (s : string) :
  match unsigned_literal s with
  | None =>
      strconv.ParseUint10 s 0 = (0, Some (NumSyntax "ParseUint" s))
      \/ strconv.ParseUint10 s 0 = (2 ^ 64 - 1, Some (NumRange "ParseUint" s))
  | Some v =>
      strconv.ParseUint10 s 0 =
      if v <=? 2 ^ 64 - 1 then (v, None)
      else (2 ^ 64 - 1, Some (NumRange "ParseUint" s))
  end.
Proof.
  destruct s as [|c rest]; [simpl; auto|].
  unfold unsigned_literal, strconv.ParseUint10.
  change (if 0 =? 0 then strconv.IntSize else 0) with 64.
  apply digits_loop_spec. lia.
Qed.

Lemma signed_result_spec (s0 body : string) (neg : bool) (v : Z) :
  (fst (strconv.signed_result s0 neg 0 (strconv.ParseUint10 body 0)) = v
   /\ snd (strconv.signed_result s0 neg 0 (strconv.ParseUint10 body 0)) = None)
  <->
  (exists un, unsigned_literal body = Some un
              /\ v = (if neg then - un else un)
              /\ - 2 ^ 63 <= v <= 2 ^ 63 - 1).
Proof.
  pose proof (ParseUint10_spec body) as HU.
  pose proof (unsigned_literal_nonneg body) as Hpos.
  change (2 ^ 64 - 1) with 18446744073709551615 in HU.
  change (2 ^ 63) with 9223372036854775808.
  destruct (unsigned_literal body) as [un|].
  - specialize (Hpos un eq_refl). rewrite HU. clear HU.
    unfold strconv.signed_result.
    change (2 ^ ((if 0 =? 0 then strconv.IntSize else 0) - 1))
      with 9223372036854775808.
    destruct (Z.leb_spec un 18446744073709551615) as [Hm|Hm]; cbv iota beta.
    + destruct neg; simpl negb; simpl andb.
      * destruct (Z.ltb_spec 9223372036854775808 un); simpl; split.
        -- intros [_ ?]; discriminate.
        -- intros (un' & [= <-] & -> & ?). lia.
        -- intros [<- _]. exists un. repeat split; lia.
        -- intros (un' & [= <-] & -> & ?). split; reflexivity.
      * destruct (Z.leb_spec 9223372036854775808 un); simpl; split.
        -- intros [_ ?]; discriminate.
        -- intros (un' & [= <-] & -> & ?). lia.
        -- intros [<- _]. exists un. repeat split; lia.
        -- intros (un' & [= <-] & -> & ?). split; reflexivity.
    + destruct neg; simpl; split.
      * intros [_ ?]; discriminate.
      * intros (un' & [= <-] & -> & ?). lia.
      * intros [_ ?]; discriminate.
      * intros (un' & [= <-] & -> & ?). lia.
  - split.
    + destruct HU as [-> | ->]; destruct neg; simpl; intros [_ ?]; discriminate.
    + intros (un & ? & _). discriminate.
Qed.

Lemma Atoi_Ok_iff (s : string) (v : Z) :
  strconv.Atoi s = Ok v <->
  fst (strconv.ParseInt10 s 0) = v /\ snd (strconv.ParseInt10 s 0) = None.
Proof.
  unfold strconv.Atoi.
  destruct (strconv.ParseInt10 s 0) as [i [e|]]; simpl.
  - split; [destruct e; discriminate | intros [_ ?]; discriminate].
  - split; [intros [= ->]; auto | intros [-> _]; reflexivity].
Qed.

(** [strconv.Atoi] succeeds exactly on the integer literals whose value
    fits [int], and returns that value. *)
Lemma Atoi_spec (s : string) (v : Z) :
  strconv.Atoi s = Ok v <->
  int_literal s = Some v /\ - 2 ^ 63 <= v <= 2 ^ 63 - 1.
Proof.
  rewrite Atoi_Ok_iff.
  destruct s as [|c rest].
  - simpl. split; [intros [_ ?] | intros [? _]]; discriminate.
  - unfold strconv.ParseInt10, int_literal.
    destruct (Ascii.eqb c "+"); [|destruct (Ascii.eqb c "-")];
      rewrite signed_result_spec; split.
    + intros (un & -> & -> & ?). auto.
    + intros [H ?]. exists v. auto.
    + intros (un & -> & -> & ?). auto.
    + intros [H ?]. destruct (unsigned_literal rest) as [un|]; [|discriminate].
      injection H as <-. exists un. auto.
    + intros (un & -> & -> & ?). auto.
    + intros [H ?]. exists v. auto.
Qed.

Lemma Atoi_numeric (s : string) :
  numeric s <-> exists v, strconv.Atoi s = Ok v.
Proof.
  unfold numeric. split; intros [v H]; exists v; apply Atoi_spec; exact H.
Qed.

(** ** Construction *)

Lemma Split_length (s : string) (sep : ascii) :
  (1 <= length (strings.Split s sep))%nat.
Proof.
  induction s as [|c rest IH]; simpl; [lia|].
  destruct (Ascii.eqb c sep); simpl; [lia|].
  destruct (strings.Split rest sep); simpl; lia.
Qed.

(** The loop fills [ports] from index [i] on with the values of the
    fields, as long as every field converts. *)
Lemma csv_loop_ok (fields : list string) :
  forall (i : nat) (ports vs : list Z),
    Forall2 (fun fld v => strconv.Atoi fld = Ok v) fields vs ->
    (i + length fields <= length ports)%nat ->
    csv_loop fields i ports
    = Ok (take i ports ++ vs ++ drop (i + length fields) ports).
Proof.
  induction fields as [|fld rest IH]; intros i ports vs HF Hlen.
  - inversion HF; subst. simpl. rewrite Nat.add_0_r, take_drop. reflexivity.
  - inversion HF as [|? v ? vs' Hv HF']; subst. simpl in *. rewrite Hv.
    rewrite (IH (S i) (<[i:=v]> ports) vs' HF')
      by (rewrite length_insert; lia).
    f_equal.
    rewrite (take_S_r _ _ v) by (apply list_lookup_insert_eq; lia).
    rewrite take_insert_ge by lia.
    rewrite drop_insert_lt by lia.
    rewrite <- app_assoc. simpl.
    replace (i + S (length rest))%nat with (S (i + length rest)) by lia.
    reflexivity.
Qed.

(** The loop leaves with an error as soon as a field does not convert. *)
Lemma csv_loop_err (fields : list string) :
  forall (i : nat) (ports : list Z),
    Exists (fun fld => forall v, strconv.Atoi fld <> Ok v) fields ->
    exists e, csv_loop fields i ports = Err e.
Proof.
  induction fields as [|fld rest IH]; intros i ports HE.
  - inversion HE.
  - simpl. destruct (strconv.Atoi fld) as [p|e] eqn:Hp; [|eauto].
    apply IH. inversion HE as [? ? Hbad|]; subst; [|assumption].
    exfalso. exact (Hbad p Hp).
Qed.

Lemma apply_setters_app (pre post : list optSetter) (f : HTTPConnectHandler) :
  apply_setters (pre ++ post) f =
  match apply_setters pre f with
  | (Some f', _) => apply_setters post f'
  | (None, err) => (None, err)
  end.
Proof.
  revert f. induction pre as [|s pre IH]; intros f; simpl; [reflexivity|].
  destruct (s f) as [f' [e|]]; [reflexivity | apply IH].
Qed.

Lemma apply_setters_total (setters : list optSetter) (f : HTTPConnectHandler) :
  (exists f', apply_setters setters f = (Some f', None))
  \/ (exists e, apply_setters setters f = (None, Some e)).
Proof.
  revert f. induction setters as [|s rest IH]; intros f; simpl; [eauto|].
  destruct (s f) as [f' [e|]]; [eauto | apply IH].
Qed.

Lemma AllowedPortsFromCSV_numeric (csv : string) (f : HTTPConnectHandler) :
  Forall numeric (strings.Split csv ",") ->
  exists ports,
    Forall2 (fun fld p => int_literal fld = Some p)
      (strings.Split csv ",") ports
    /\ AllowedPortsFromCSV csv f
       = (mkHandler (next f) (idleTimeout f) ports, None).
Proof.
  intros Hnum. unfold AllowedPortsFromCSV.
  set (fields := strings.Split csv ",") in *.
  assert (exists ports,
             Forall2 (fun fld p => strconv.Atoi fld = Ok p) fields ports)
    as [ports HF].
  { clear -Hnum. induction Hnum as [|fld rest Hn _ [ps IH]].
    - exists []. constructor.
    - apply Atoi_numeric in Hn as [v Hv]. exists (v :: ps).
      constructor; assumption. }
  exists ports. split.
  - eapply Forall2_impl; [exact HF|]. intros fld p Hp.
    apply Atoi_spec in Hp. tauto.
  - rewrite (csv_loop_ok fields O _ ports HF)
      by (rewrite length_replicate; simpl; lia).
    simpl. rewrite drop_ge by (rewrite length_replicate; lia).
    rewrite app_nil_r. reflexivity.
Qed.

Lemma AllowedPortsFromCSV_not_numeric (csv : string) (f : HTTPConnectHandler) :
  Exists (fun fld => ~ numeric fld) (strings.Split csv ",") ->
  exists e, AllowedPortsFromCSV csv f = (f, Some e).
Proof.
  intros HE. unfold AllowedPortsFromCSV.
  destruct (csv_loop_err (strings.Split csv ",") O
              (replicate (length (strings.Split csv ",")) 0)) as [e ->].
  - eapply Exists_impl; [exact HE|]. intros fld Hn v Hv. apply Hn.
    apply Atoi_numeric. eauto.
  - eauto.
Qed.

Lemma csv_loop_length (fields : list string) :
  forall (i : nat) (ports ps : list Z),
    csv_loop fields i ports = Ok ps -> length ps = length ports.
Proof.
  induction fields as [|fld rest IH]; simpl; intros i ports ps H.
  - injection H as <-. reflexivity.
  - destruct (strconv.Atoi fld) as [p|e]; [|discriminate].
    apply IH in H. rewrite length_insert in H. exact H.
Qed.

(** A handler configured from a CSV string never has the empty list. *)
Lemma AllowedPortsFromCSV_nonempty (csv : string) (f f' : HTTPConnectHandler) :
  AllowedPortsFromCSV csv f = (f', None) -> allowedPorts f' <> [].
Proof.
  unfold AllowedPortsFromCSV.
  destruct (csv_loop _ _ _) as [ps|e] eqn:Hl; [|discriminate].
  intros [= <-]. simpl. apply csv_loop_length in Hl.
  rewrite length_replicate in Hl.
  pose proof (Split_length csv ",") as Hs.
  destruct ps; [simpl in Hl; lia | discriminate].
Qed.

(** The handler allows any target exactly when its list is empty: with
    an entry in the list, a target without a port is refused. *)
Lemma allow_any_iff (f : HTTPConnectHandler) :
  (forall w req, snd (portAllowed f w req) = true) <-> allowedPorts f = [].
Proof.
  split.
  - intros H. specialize (H (sample_writer None) (connect_to "example.com")).
    unfold portAllowed in H. destruct (allowedPorts f); [reflexivity|].
    simpl in H. discriminate.
  - intros E w req. unfold portAllowed. rewrite E. reflexivity.
Qed.

(** A field that is not numeric makes [New] fail wherever the CSV
    setter stands among the setters. *)
Lemma New_csv_fails (csv : string) (next : option Handler)
    (pre post : list optSetter) :
  Exists (fun fld => ~ numeric fld) (strings.Split csv ",") ->
  exists e, New next (pre ++ AllowedPortsFromCSV csv :: post) = (None, Some e).
Proof.
  intros HE. destruct next as [n|]; simpl; [|eauto].
  rewrite apply_setters_app.
  destruct (apply_setters_total pre (mkHandler n 0 [])) as [[f' ->]|[e ->]];
    [|eauto].
  simpl.
  destruct (AllowedPortsFromCSV_not_numeric csv f' HE) as [e ->]. eauto.
Qed.

(** C8: when the allowed ports are configured from a comma-separated
    string, [New] fails, with an error and no handler, if some entry of
    the string is not numeric, whatever the other arguments; when every
    entry is numeric the setter stores exactly the integers that the
    entries denote, in order, and [New] returns a handler with that
    list. *)
Theorem New_AllowedPortsFromCSV (csv : string) :
  (Exists (fun fld => ~ numeric fld) (strings.Split csv ",") ->
   forall next pre post,
   exists e, New next (pre ++ AllowedPortsFromCSV csv :: post) = (None, Some e))
  /\
  (Forall numeric (strings.Split csv ",") ->
   exists ports,
     Forall2 (fun fld p => int_literal fld = Some p)
       (strings.Split csv ",") ports
     /\ (forall f, AllowedPortsFromCSV csv f
                   = (mkHandler (next f) (idleTimeout f) ports, None))
     /\ (forall n, New (Some n) [AllowedPortsFromCSV csv]
                   = (Some (mkHandler n 0 ports), None))).
Proof.
  split.
  - intros HE next pre post. apply New_csv_fails. exact HE.
  - intros HF.
    destruct (AllowedPortsFromCSV_numeric csv (mkHandler O 0 []) HF)
      as (ports & HP & _).
    exists ports. split; [exact HP|].
    assert (forall f, AllowedPortsFromCSV csv f
                      = (mkHandler (next f) (idleTimeout f) ports, None)) as HA.
    { intros f.
      destruct (AllowedPortsFromCSV_numeric csv f HF) as (ports' & HP' & ->).
      replace ports' with ports; [reflexivity|].
      clear -HP HP'. revert ports' HP'.
      induction HP as [|fld p flds ps Hp _ IH]; intros ports' HP';
        inversion HP'; subst; [reflexivity|].
      f_equal; [congruence | apply IH; assumption]. }
    split; [exact HA|].
    intros n. simpl. rewrite HA. reflexivity.
Qed.

Lemma New_AllowedPortsFromCSV_witness :
  (exists e, New (Some 7%nat) ([] ++ AllowedPortsFromCSV "443,https" :: [])
             = (None, Some e))
  /\ (exists ports,
        Forall2 (fun fld p => int_literal fld = Some p)
          (strings.Split "443,8443" ",") ports
        /\ (forall f, AllowedPortsFromCSV "443,8443" f
                      = (mkHandler (next f) (idleTimeout f) ports, None))
        /\ (forall n, New (Some n) [AllowedPortsFromCSV "443,8443"]
                      = (Some (mkHandler n 0 ports), None))).
Proof.
  split.
  - apply (proj1 (New_AllowedPortsFromCSV "443,https")).
    right. left. intros [v [H _]]. discriminate H.
  - apply (proj2 (New_AllowedPortsFromCSV "443,8443")).
    repeat constructor; eexists; (split; [reflexivity | split; discriminate]).
Defined.

(** C9: with a nil next handler [New] returns no handler and an error,
    whichever option setters are passed; and, the other way round, a
    call of [New] that returns a handler had a next handler that is not
    nil, and returns no error with it. *)
Theorem New_nil_next (setters : list optSetter) :
  New None setters
  = (None, Some (ErrorString "Next handler is not defined (nil)"))
  /\ forall next h err,
       New next setters = (Some h, err) ->
       next <> None /\ err = None.
Proof.
  split; [reflexivity|].
  intros [n|] h err H; simpl in H; [|discriminate H].
  split; [discriminate|].
  destruct (apply_setters_total setters (mkHandler n 0 []))
    as [[f' E]|[e E]]; rewrite E in H; [|discriminate H].
  injection H as _ <-. reflexivity.
Qed.

Lemma New_nil_next_witness :
  Some 7%nat <> None /\ (None : option error) = None.
Proof.
  apply (proj2 (New_nil_next [AllowedPorts [443]]) (Some 7%nat)
           (mkHandler 7%nat 0 [443]) None).
  reflexivity.
Defined.

(** C10: the empty CSV string splits into the single entry [""], which
    does not convert, so construction fails with it; a handler built from
    any CSV string has a non-empty list and refuses some target; the
    handler built with no option, or with the empty integer list, allows
    every target. *)
Theorem empty_csv_is_not_allow_any :
  (strings.Split "" "," = [""] /\ (forall v, strconv.Atoi "" <> Ok v))
  /\ (forall next pre post,
        exists e, New next (pre ++ AllowedPortsFromCSV "" :: post)
                  = (None, Some e))
  /\ (forall csv n h,
        New (Some n) [AllowedPortsFromCSV csv] = (Some h, None) ->
        allowedPorts h <> []
        /\ exists w req, snd (portAllowed h w req) = false)
  /\ (forall n,
        exists h, New (Some n) [] = (Some h, None)
                  /\ forall w req, portAllowed h w req = ([], true))
  /\ (forall n,
        exists h, New (Some n) [AllowedPorts []] = (Some h, None)
                  /\ forall w req, portAllowed h w req = ([], true)).
Proof.
  split; [split; [reflexivity | intros v; discriminate]|].
  split.
  { intros next pre post. apply New_csv_fails.
    left. intros [v [H _]]. discriminate H. }
  split.
  { intros csv n h H. simpl in H.
    destruct (AllowedPortsFromCSV csv (mkHandler n 0 [])) as [f' [e|]] eqn:E;
      [discriminate|].
    injection H as ->. apply AllowedPortsFromCSV_nonempty in E.
    split; [exact E|].
    exists (sample_writer None), (connect_to "example.com").
    unfold portAllowed. destruct (allowedPorts h); [congruence | reflexivity]. }
  split; intros n; eexists; (split; [reflexivity | intros w req; reflexivity]).
Qed.

Lemma empty_csv_is_not_allow_any_witness :
  allowedPorts (mkHandler 7%nat 0 [443]) <> []
  /\ exists w req, snd (portAllowed (mkHandler 7%nat 0 [443]) w req) = false.
Proof.
  apply (proj1 (proj2 (proj2 empty_csv_is_not_allow_any)) "443" 7%nat).
  reflexivity.
Defined.

(** ** Serving a request *)

Lemma port_in_In (port : Z) (ports : list Z) :
  port_in port ports = true <-> In port ports.
Proof.
  induction ports as [|p rest IH]; simpl.
  - split; [discriminate | tauto].
  - destruct (Z.eqb_spec port p) as [->|Hne].
    + tauto.
    + rewrite IH. split; [tauto | intros [?|?]; [congruence | assumption]].
Qed.

Lemma ServeHTTP_CONNECT (f : HTTPConnectHandler) (world : World)
    (w : ResponseWriter) (req : Request) :
  Method req = "CONNECT" ->
  ServeHTTP f world w req =
  let '(checked, allowed) := portAllowed f w req in
  if allowed then
    let '(evs, out) := intercept f world w req in
    match out with
    | Tunnel _ _ _ => (received world req ++ checked ++ evs, out)
    | _ => (received world req ++ checked ++ evs ++ [OpExit], out)
    end
  else (received world req ++ checked ++ [OpExit], Returned).
Proof.
  intros H. unfold ServeHTTP. rewrite H. reflexivity.
Qed.

(** A request that the authorizer lets through is answered by it with at
    most the trace message. *)
Lemma portAllowed_true (f : HTTPConnectHandler) (w : ResponseWriter)
    (req : Request) :
  snd (portAllowed f w req) = true ->
  fst (portAllowed f w req) = [] \/ fst (portAllowed f w req) = [checking f req].
Proof.
  unfold portAllowed. destruct (allowedPorts f) as [|p ps]; [auto|].
  destruct (net.SplitHostPort (Host req)) as [[h ps']|e]; [|discriminate].
  destruct (strconv.Atoi ps') as [port|e]; [|discriminate].
  destruct (port_in port (p :: ps)); [auto | discriminate].
Qed.

(** Without a tunnel there is no relay to run. *)
Lemma session_Returned (f : HTTPConnectHandler) (world : World)
    (w : ResponseWriter) (req : Request) (evs : list event) :
  ServeHTTP f world w req = (evs, Returned) ->
  forall sched b,
    session f world w req sched = Some b ->
    sched = [] /\ b = (evs, Returned, Relay.init).
Proof.
  intros H sched b. unfold session. rewrite H.
  destruct sched; [|discriminate]. intros [= <-]. auto.
Qed.

(** C2: on a CONNECT request, with a non-empty list of allowed ports and
    a target that splits into host and port with a port that converts to
    an integer, the authorizer answers yes exactly when that integer is
    an entry of the list; when it is none, the handler logs the refusal,
    writes status 403 and the reason, and returns: no hijack, no dial,
    no tunnel. *)
Theorem portAllowed_iff_listed (f : HTTPConnectHandler) (world : World)
    (w : ResponseWriter) (req : Request) (host portString : string)
    (port : Z) :
  Method req = "CONNECT" ->
  allowedPorts f <> [] ->
  net.SplitHostPort (Host req) = Ok (host, portString) ->
  strconv.Atoi portString = Ok port ->
  (snd (portAllowed f w req) = true <-> In port (allowedPorts f))
  /\ (~ In port (allowedPorts f) ->
      ServeHTTP f world w req
      = (received world req
         ++ [checking f req;
             OpErrorf "Respond error to CONNECT request to %s: %d %v"
               [AStr (Host req); AInt 403; AStr "Port not allowed"];
             Log LError "Respond error to CONNECT request to %s: %d %v"
               [AStr (Host req); AInt 403; AStr "Port not allowed"];
             WriteHeader 403;
             Fprintf "%v" "Port not allowed";
             OpExit],
         Returned)).
Proof.
  intros HM Hne Hsplit Hatoi.
  assert (portAllowed f w req
          = if port_in port (allowedPorts f) then ([checking f req], true)
            else (checking f req
                    :: ServeError f w req StatusForbidden "Port not allowed",
                  false)) as HP.
  { unfold portAllowed. destruct (allowedPorts f) as [|p ps]; [congruence|].
    rewrite Hsplit, Hatoi. reflexivity. }
  split.
  - rewrite HP, <- port_in_In.
    destruct (port_in port (allowedPorts f)); simpl; split; congruence.
  - intros Hnot. rewrite ServeHTTP_CONNECT, HP by exact HM.
    destruct (port_in port (allowedPorts f)) eqn:E.
    + apply port_in_In in E. contradiction.
    + reflexivity.
Qed.

Lemma portAllowed_iff_listed_witness :
  (snd (portAllowed (sample_handler [443; 8443]) (sample_writer None)
          (connect_to "example.com:443")) = true
   <-> In 443 [443; 8443])
  /\ (snd (portAllowed (sample_handler [443; 8443]) (sample_writer None)
             (connect_to "example.com:80")) = true
      <-> In 80 [443; 8443]).
Proof.
  split.
  - apply (proj1 (portAllowed_iff_listed (sample_handler [443; 8443])
                    (sample_world (Err (IOError 1))) (sample_writer None)
                    (connect_to "example.com:443") "example.com" "443" 443
                    eq_refl ltac:(discriminate) eq_refl eq_refl)).
  - apply (proj1 (portAllowed_iff_listed (sample_handler [443; 8443])
                    (sample_world (Err (IOError 1))) (sample_writer None)
                    (connect_to "example.com:80") "example.com" "80" 80
                    eq_refl ltac:(discriminate) eq_refl eq_refl)).
Defined.




(** C4: with the empty list of allowed ports the authorizer answers yes
    on every request, writing nothing, whatever the target; a CONNECT
    request then goes on to the success response of the tunnel. *)
Theorem empty_list_allows_all (f : HTTPConnectHandler) (world : World)
    (w : ResponseWriter) (req : Request) :
  allowedPorts f = [] ->
  portAllowed f w req = ([], true)
  /\ (Method req = "CONNECT" ->
      exists rest,
        fst (ServeHTTP f world w req)
        = received world req ++ Respond 200 None :: rest).
Proof.
  intros E.
  assert (portAllowed f w req = ([], true)) as HP
    by (unfold portAllowed; rewrite E; reflexivity).
  split; [exact HP|].
  intros HM. rewrite ServeHTTP_CONNECT, HP by exact HM.
  unfold intercept.
  destruct (Hijacker w) as [[c|e]|]; simpl; eauto.
  destruct (DialTimeout world "tcp" (Host req) (10 * Second)); simpl; eauto.
Qed.

Lemma empty_list_allows_all_witness :
  portAllowed (sample_handler []) (sample_writer None)
    (connect_to "example.com") = ([], true)
  /\ portAllowed (sample_handler []) (sample_writer None)
       (connect_to "example.com:80") = ([], true).
Proof.
  split.
  - apply (proj1 (empty_list_allows_all (sample_handler [])
                    (sample_world (Err (IOError 1))) (sample_writer None)
                    (connect_to "example.com") eq_refl)).
  - apply (proj1 (empty_list_allows_all (sample_handler [])
                    (sample_world (Err (IOError 1))) (sample_writer None)
                    (connect_to "example.com:80") eq_refl)).
Defined.

(** C5: a request whose method is not CONNECT is handed, with the same
    writer and the same request, to the next handler, and that call is
    all the handler does: it returns with no hijack, no dial, no relay
    and no other event. *)
Theorem other_methods_pass_through (f : HTTPConnectHandler) (world : World)
    (w : ResponseWriter) (req : Request) :
  Method req <> "CONNECT" ->
  ServeHTTP f world w req = ([NextServeHTTP (next f) w req], Returned)
  /\ forall sched b,
       session f world w req sched = Some b ->
       sched = []
       /\ b = ([NextServeHTTP (next f) w req], Returned, Relay.init).
Proof.
  intros HM.
  assert (ServeHTTP f world w req = ([NextServeHTTP (next f) w req], Returned))
    as HS.
  { unfold ServeHTTP. apply String.eqb_neq in HM. rewrite HM. reflexivity. }
  split; [exact HS|]. apply session_Returned. exact HS.
Qed.

Lemma other_methods_pass_through_witness :
  ServeHTTP (sample_handler [443]) (sample_world (Ok (NetConn 2)))
    (sample_writer (Some (Ok (NetConn 1)))) (mkRequest "GET" "example.com:80")
  = ([NextServeHTTP 7%nat (sample_writer (Some (Ok (NetConn 1))))
        (mkRequest "GET" "example.com:80")],
     Returned).
Proof.
  apply (proj1 (other_methods_pass_through (sample_handler [443])
                  (sample_world (Ok (NetConn 2)))
                  (sample_writer (Some (Ok (NetConn 1))))
                  (mkRequest "GET" "example.com:80") ltac:(discriminate))).
Defined.

(** The path of [intercept] that handles a failed hijack: on an
    authorized CONNECT request whose writer is a hijacker and whose
    [Hijack()] returns an error, the handler, after the success response
    it has already sent, records the error, responds with status 502 and
    returns; [net.DialTimeout] is not called and no relay is run. *)
Lemma hijack_error_bad_gateway (f : HTTPConnectHandler) (world : World)
    (w : ResponseWriter) (req : Request) (err : error) :
  Method req = "CONNECT" ->
  snd (portAllowed f w req) = true ->
  Hijacker w = Some (Err err) ->
  ServeHTTP f world w req
  = (received world req ++ fst (portAllowed f w req)
     ++ [Respond 200 None;
         HijackCall (Err err);
         OpErrorf "Unable to hijack connection: %s" [AErr err];
         Respond 502 (Some ("Unable to hijack connection: %s", [AErr err]));
         OpExit],
     Returned)
  /\ (forall e, In e (fst (ServeHTTP f world w req)) -> is_dial e = false)
  /\ (forall sched b,
        session f world w req sched = Some b ->
        sched = [] /\ snd b = Relay.init).
Proof.
  intros HM HA HH.
  set (evs := received world req ++ fst (portAllowed f w req)
     ++ [Respond 200 None;
         HijackCall (Err err);
         OpErrorf "Unable to hijack connection: %s" [AErr err];
         Respond 502 (Some ("Unable to hijack connection: %s", [AErr err]));
         OpExit]).
  assert (ServeHTTP f world w req = (evs, Returned)) as HS.
  { rewrite ServeHTTP_CONNECT by exact HM.
    destruct (portAllowed f w req) as [checked allowed]. simpl in HA.
    subst allowed. unfold intercept. rewrite HH. reflexivity. }
  split; [exact HS|]. split.
  - rewrite HS. simpl. unfold evs, received.
    destruct (portAllowed_true f w req HA) as [-> | ->];
      destruct (IsTraceEnabled world); simpl; intros e He;
      repeat (destruct He as [<-|He]; [reflexivity|]); contradiction.
  - intros sched b Hb.
    destruct (session_Returned f world w req evs HS sched b Hb) as [-> ->].
    auto.
Qed.

Lemma hijack_error_bad_gateway_witness :
  In (Respond 502 (Some ("Unable to hijack connection: %s", [AErr (IOError 5)])))
    (fst (ServeHTTP (sample_handler [443]) (sample_world (Ok (NetConn 2)))
            (sample_writer (Some (Err (IOError 5))))
            (connect_to "example.com:443"))).
Proof.
  rewrite (proj1 (hijack_error_bad_gateway (sample_handler [443])
                    (sample_world (Ok (NetConn 2)))
                    (sample_writer (Some (Err (IOError 5))))
                    (connect_to "example.com:443") (IOError 5)
                    eq_refl eq_refl eq_refl)).
  simpl. tauto.
Defined.

(** A writer that is no hijacker at all: the assertion panics after the
    success response; nothing else is written, nothing is dialed. *)
Lemma not_a_hijacker_panics (f : HTTPConnectHandler) (world : World)
    (w : ResponseWriter) (req : Request) :
  Method req = "CONNECT" ->
  snd (portAllowed f w req) = true ->
  Hijacker w = None ->
  ServeHTTP f world w req
  = (received world req ++ fst (portAllowed f w req)
     ++ [Respond 200 None; OpExit],
     Panicked).
Proof.
  intros HM HA HH. rewrite ServeHTTP_CONNECT by exact HM.
  destruct (portAllowed f w req) as [checked allowed]. simpl in HA.
  subst allowed. unfold intercept. rewrite HH. reflexivity.
Qed.

(** C6 does not hold of the code when the hijack fails because the
    writer does not implement [http.Hijacker]: on the allowed target
    "example.com:443" the handler sends the success response and then
    panics in the type assertion; it responds with no status 502 (and
    dials nothing). *)
Theorem hijack_unsupported_no_bad_gateway :
  Hijacker (sample_writer None) = None
  /\ snd (portAllowed (sample_handler [443]) (sample_writer None)
            (connect_to "example.com:443")) = true
  /\ ServeHTTP (sample_handler [443]) (sample_world (Ok (NetConn 2)))
       (sample_writer None) (connect_to "example.com:443")
     = ([OpEnter "proxy_https";
         checking (sample_handler [443]) (connect_to "example.com:443");
         Respond 200 None;
         OpExit],
        Panicked)
  /\ forall e,
       In e (fst (ServeHTTP (sample_handler [443])
                    (sample_world (Ok (NetConn 2))) (sample_writer None)
                    (connect_to "example.com:443"))) ->
       is_error_response e = false /\ is_dial e = false.
Proof.
  split; [reflexivity|]. split; [reflexivity|]. split; [reflexivity|].
  cbn. intros e He.
  repeat (destruct He as [<-|He]; [split; reflexivity|]). contradiction.
Qed.

(** C7: on an authorized CONNECT request whose hijack succeeds and whose
    dial, made with a timeout of ten seconds, fails, the handler records
    the error and returns: after the success response it writes no
    status of its own, no relay is run, and so nothing closes the
    hijacked client connection. *)
Theorem dial_failure_abandons_client (f : HTTPConnectHandler) (world : World)
    (w : ResponseWriter) (req : Request) (clientConn : Conn) (err : error) :
  Method req = "CONNECT" ->
  snd (portAllowed f w req) = true ->
  Hijacker w = Some (Ok clientConn) ->
  DialTimeout world "tcp" (Host req) (10 * Second) = Err err ->
  ServeHTTP f world w req
  = (received world req ++ fst (portAllowed f w req)
     ++ [Respond 200 None;
         HijackCall (Ok clientConn);
         DialCall "tcp" (Host req) 10000000000 (Err err);
         OpErrorf "Unable to dial %v: %v" [AStr (Host req); AErr err];
         OpExit],
     Returned)
  /\ (forall e, In e (fst (ServeHTTP f world w req)) ->
                is_error_response e = false)
  /\ (forall sched b,
        session f world w req sched = Some b ->
        sched = []
        /\ Relay.log (snd b) = []
        /\ forall c, Relay.closes_of c (Relay.log (snd b)) = O).
Proof.
  intros HM HA HH HD.
  set (evs := received world req ++ fst (portAllowed f w req)
     ++ [Respond 200 None;
         HijackCall (Ok clientConn);
         DialCall "tcp" (Host req) 10000000000 (Err err);
         OpErrorf "Unable to dial %v: %v" [AStr (Host req); AErr err];
         OpExit]).
  assert (ServeHTTP f world w req = (evs, Returned)) as HS.
  { rewrite ServeHTTP_CONNECT by exact HM.
    destruct (portAllowed f w req) as [checked allowed]. simpl in HA.
    subst allowed. unfold intercept. rewrite HH, HD. reflexivity. }
  split; [exact HS|]. split.
  - rewrite HS. simpl. unfold evs, received.
    destruct (portAllowed_true f w req HA) as [-> | ->];
      destruct (IsTraceEnabled world); simpl; intros e He;
      repeat (destruct He as [<-|He]; [reflexivity|]); contradiction.
  - intros sched b Hb.
    destruct (session_Returned f world w req evs HS sched b Hb) as [-> ->].
    auto.
Qed.

Lemma dial_failure_abandons_client_witness :
  ServeHTTP (sample_handler [443]) (sample_world (Err (IOError 9)))
    (sample_writer (Some (Ok (NetConn 1)))) (connect_to "example.com:443")
  = ([OpEnter "proxy_https";
      checking (sample_handler [443]) (connect_to "example.com:443");
      Respond 200 None;
      HijackCall (Ok (NetConn 1));
      DialCall "tcp" "example.com:443" 10000000000 (Err (IOError 9));
      OpErrorf "Unable to dial %v: %v"
        [AStr "example.com:443"; AErr (IOError 9)];
      OpExit],
     Returned).
Proof.
  apply (proj1 (dial_failure_abandons_client (sample_handler [443])
                  (sample_world (Err (IOError 9)))
                  (sample_writer (Some (Ok (NetConn 1))))
                  (connect_to "example.com:443") (NetConn 1) (IOError 9)
                  eq_refl eq_refl eq_refl eq_refl)).
Defined.

(** ** The relay *)

Import Relay.

Section RelayFacts.

Variables (clientConn connOutRaw : Conn) (timeout : Duration).

Local Abbreviation connOut := (Relay.connOut connOutRaw timeout).
Local Abbreviation step := (Relay.step clientConn connOutRaw timeout).
Local Abbreviation exec := (Relay.exec clientConn connOutRaw timeout).
Local Abbreviation Inv := (Relay.Inv clientConn connOutRaw timeout).
Local Abbreviation caller_hist := (Relay.caller_hist clientConn connOutRaw timeout).
Local Abbreviation upload_hist := (Relay.upload_hist clientConn connOutRaw timeout).
Local Abbreviation closes_after_copies :=
  (Relay.closes_after_copies clientConn connOutRaw timeout).

Lemma ops_of_app (t : thread) (l1 l2 : list revent) :
  ops_of t (l1 ++ l2) = ops_of t l1 ++ ops_of t l2.
Proof. unfold ops_of. rewrite List.filter_app, map_app. reflexivity. Qed.

Lemma ops_of_In (t : thread) (o : op) (l : list revent) :
  In o (ops_of t l) -> In (t, o) l.
Proof.
  unfold ops_of. intros H. apply in_map_iff in H as ([t' o'] & <- & H).
  apply List.filter_In in H as [H Ht]. simpl in *.
  destruct t', t; try discriminate; exact H.
Qed.

Lemma ops_of_snoc_same (t : thread) (o : op) (l : list revent) :
  ops_of t (l ++ [(t, o)]) = ops_of t l ++ [o].
Proof. rewrite ops_of_app. unfold ops_of at 2. destruct t; reflexivity. Qed.

Lemma ops_of_snoc_other (t t' : thread) (o : op) (l : list revent) :
  thread_eqb t' t = false -> ops_of t (l ++ [(t', o)]) = ops_of t l.
Proof.
  intros H. rewrite ops_of_app. unfold ops_of at 2. simpl. rewrite H.
  apply app_nil_r.
Qed.

(** An event added at the end keeps the order property if, when it is
    a close of the teardown, the log before it holds the signal and
    both returns. *)
Lemma closes_after_copies_snoc (l : list revent) (e : revent) :
  closes_after_copies l ->
  (is_teardown_close e ->
   upload_signalled l
   /\ upload_copy_returned clientConn connOutRaw timeout l
   /\ download_copy_returned clientConn connOutRaw timeout l) ->
  closes_after_copies (l ++ [e]).
Proof.
  intros Hl He older e0 newer Heq Hc.
  destruct newer as [|x newer'] using rev_ind.
  - apply app_inj_tail in Heq as [-> ->]. auto.
  - clear IHnewer'.
    rewrite app_comm_cons, app_assoc in Heq.
    apply app_inj_tail in Heq as [-> _].
    eapply Hl; eauto.
Qed.

Lemma Inv_init : Inv init.
Proof.
  split; try reflexivity.
  intros older e newer H. destruct older; discriminate H.
Qed.

(** Reading the agreement of the control points off [coherent]. *)
Ltac coherent_facts :=
  unfold coherent in *; cbn in *;
  repeat match goal with
         | H : _ && _ = true |- _ => apply andb_true_iff in H; destruct H
         | H : (_ =? _) = true |- _ => apply Z.eqb_eq in H; subst
         | H : negb (is_nil ?r) = true |- _ => destruct r; cbn in H
         | H : false = true |- _ => discriminate H
         end.

Ltac coherent_goal :=
  unfold coherent; cbn;
  repeat (apply andb_true_iff; split); try reflexivity;
  try (apply Z.eqb_eq; lia).

Ltac not_a_close :=
  let c := fresh in
  let r := fresh in
  let H := fresh in
  intros (c & r & H); discriminate H.

(** The facts that a close of the teardown needs, from the histories of
    the two threads. *)
Ltac copies_done Hc Hu :=
  intros _; split; [|split];
  [ apply ops_of_In; rewrite Hu;
    repeat match goal with r : option error |- _ => destruct r end;
    cbn; tauto
  | eexists; apply ops_of_In; rewrite Hu; cbn; tauto
  | eexists; apply ops_of_In; rewrite Hc; cbn; tauto ].

Lemma Inv_caller_step (r : option error) (s s' : state) :
  Inv s -> caller_step clientConn connOutRaw timeout r s = Some s' -> Inv s'.
Proof.
  intros [Hc Hu Hcoh Ho] Hstep.
  destruct s as [pc u wg we re e1 e2 l].
  unfold Relay.caller_hist, Relay.upload_hist in *. cbn [log] in *.
  set (oc := ops_of Caller l) in *. set (ou := ops_of Upload l) in *.
  destruct pc, u; coherent_facts; try discriminate Hstep;
    destruct r; cbn in Hstep; injection Hstep as <-.
  all: subst oc ou; split;
    [ cbn [log]; rewrite ops_of_snoc_same, Hc;
      repeat match goal with x : option error |- _ => destruct x end;
      reflexivity
    | cbn [log]; rewrite ops_of_snoc_other by reflexivity; exact Hu
    | coherent_goal
    | cbn [log]; apply closes_after_copies_snoc;
      [exact Ho | first [not_a_close | copies_done Hc Hu]] ].
Qed.

Lemma Inv_upload_step (r : option error) (s s' : state) :
  Inv s -> upload_step clientConn connOutRaw timeout r s = Some s' -> Inv s'.
Proof.
  intros [Hc Hu Hcoh Ho] Hstep.
  destruct s as [pc u wg we re e1 e2 l].
  unfold Relay.caller_hist, Relay.upload_hist in *. cbn [log] in *.
  set (oc := ops_of Caller l) in *. set (ou := ops_of Upload l) in *.
  destruct pc, u; coherent_facts; try discriminate Hstep;
    destruct r; cbn in Hstep; injection Hstep as <-.
  all: subst oc ou; split;
    [ cbn [log]; rewrite ops_of_snoc_other by reflexivity; exact Hc
    | cbn [log]; rewrite ops_of_snoc_same, Hu;
      repeat match goal with x : option error |- _ => destruct x end;
      reflexivity
    | coherent_goal
    | cbn [log]; apply closes_after_copies_snoc; [exact Ho | not_a_close] ].
Qed.

Lemma Inv_guard_step (r : option error) (s s' : state) :
  Inv s -> guard_step connOutRaw r s = Some s' -> Inv s'.
Proof.
  intros [Hc Hu Hcoh Ho] Hstep.
  destruct s as [pc u wg we re e1 e2 l].
  cbn in Hstep. injection Hstep as <-.
  split; cbn [log].
  - rewrite ops_of_snoc_other by reflexivity. exact Hc.
  - rewrite ops_of_snoc_other by reflexivity. exact Hu.
  - exact Hcoh.
  - apply closes_after_copies_snoc; [exact Ho | not_a_close].
Qed.

Lemma Inv_step (a : action) (s s' : state) :
  Inv s -> step a s = Some s' -> Inv s'.
Proof.
  destruct a as [[| |] r]; simpl.
  - apply Inv_caller_step.
  - apply Inv_upload_step.
  - apply Inv_guard_step.
Qed.

(** The invariant holds in every state that a schedule reaches. *)
Lemma Inv_exec (sched : list action) :
  forall s s', Inv s -> exec sched s = Some s' -> Inv s'.
Proof.
  induction sched as [|a rest IH]; simpl; intros s s' HI H.
  - injection H as <-. exact HI.
  - destruct (step a s) as [s1|] eqn:Hs; [|discriminate].
    eapply IH; [|exact H]. eapply Inv_step; eauto.
Qed.

(** *** What the invariant gives *)







(** Before the calling path has returned, one of the two tasks can
    always move: the barrier cannot block for ever once the upload copy
    has returned. *)
Lemma relay_no_deadlock (s : state) :
  Inv s ->
  cpc s <> CReturned ->
  (exists r s', caller_step clientConn connOutRaw timeout r s = Some s')
  \/ (exists r s', upload_step clientConn connOutRaw timeout r s = Some s').
Proof.
  intros [_ _ Hcoh _] Hpc.
  destruct s as [pc u wg we re e1 e2 l]. cbn [cpc] in Hpc.
  destruct pc, u; coherent_facts; try congruence;
    first [ left; exists None; eexists; reflexivity
          | right; exists None; eexists; reflexivity ].
Qed.

(** Whatever the two copies and the two closes return, the session
    can run to the end. *)
Lemma relay_completes (re we e1 e2 : option error) :
  exists s,
    exec (full_schedule re we e1 e2) init = Some s
    /\ cpc s = CReturned /\ upc s = UFinished
    /\ readErr s = re /\ writeErr s = we
    /\ closeErrClient s = e1 /\ closeErrOut s = e2.
Proof.
  destruct re, we, e1, e2; eexists; (split; [reflexivity|]); cbn; auto 10.
Qed.


End RelayFacts.




(** * Further properties *)

(** ** Splitting at a separator *)

Lemma Split_cons (s : string) (sep : ascii) :
  exists piece pieces, strings.Split s sep = piece :: pieces.
Proof.
  pose proof (Split_length s sep) as H.
  destruct (strings.Split s sep) as [|p ps]; [simpl in H; lia | eauto].
Qed.

Lemma Split_app_sep (a b : string) (sep : ascii) :
  strings.Split (a +:+ String sep b) sep
  = strings.Split a sep ++ strings.Split b sep.
Proof.
  induction a as [|c a IH]; simpl.
  - rewrite Ascii.eqb_refl. reflexivity.
  - rewrite IH. destruct (Ascii.eqb c sep); [reflexivity|].
    destruct (Split_cons a sep) as (p & ps & ->). reflexivity.
Qed.

Lemma contains_false_cons (c x : ascii) (s : string) :
  net.contains (String x s) c = false <->
  Ascii.eqb x c = false /\ net.contains s c = false.
Proof.
  unfold net.contains. simpl. destruct (Ascii.eqb x c); [split; [discriminate | intros [? _]; discriminate]|].
  destruct (strings.IndexByte s c); split; auto; intros [_ ?]; assumption.
Qed.

Lemma contains_app (a b : string) (c : ascii) :
  net.contains (a +:+ b) c = net.contains a c || net.contains b c.
Proof.
  induction a as [|x a IH]; [reflexivity|].
  unfold net.contains in *. simpl.
  destruct (Ascii.eqb x c); [reflexivity|].
  destruct (strings.IndexByte (a +:+ b) c), (strings.IndexByte a c);
    simpl in *; congruence.
Qed.

(** No field holds the separator. *)
Lemma Split_fields_plain (s : string) (sep : ascii) :
  Forall (fun fld => net.contains fld sep = false) (strings.Split s sep).
Proof.
  induction s as [|c s IH]; simpl.
  - repeat constructor.
  - destruct (Ascii.eqb c sep) eqn:E; [constructor; [reflexivity | exact IH]|].
    destruct (Split_cons s sep) as (p & ps & Hs). rewrite Hs in *.
    inversion IH; subst. constructor; [|assumption].
    apply contains_false_cons. auto.
Qed.

(** A byte of the text other than the separator lies in a field. *)
Lemma Split_covers (s : string) (sep c : ascii) :
  net.contains s c = true ->
  Ascii.eqb c sep = false ->
  Exists (fun fld => net.contains fld c = true) (strings.Split s sep).
Proof.
  intros Hc Hne. induction s as [|x s IH]; [discriminate Hc|].
  simpl. destruct (Ascii.eqb x sep) eqn:E.
  - right. apply IH.
    destruct (net.contains s c) eqn:Hs; [reflexivity|].
    assert (net.contains (String x s) c = false) as HF.
    { apply contains_false_cons. split; [|exact Hs].
      apply Ascii.eqb_eq in E. subst x.
      rewrite Ascii.eqb_sym. exact Hne. }
    congruence.
  - destruct (Split_cons s sep) as (p & ps & Hs). rewrite Hs in *.
    destruct (Ascii.eqb x c) eqn:Ex.
    + left. unfold net.contains. simpl. rewrite Ex. reflexivity.
    + assert (net.contains s c = true) as Hs'.
      { destruct (net.contains s c) eqn:H0; [reflexivity|].
        assert (net.contains (String x s) c = false)
          by (apply contains_false_cons; auto).
        congruence. }
      specialize (IH Hs'). inversion IH as [? ? Hp|? ? Hps]; subst.
      * left. unfold net.contains in *. simpl. rewrite Ex.
        destruct (strings.IndexByte p c); [reflexivity | discriminate].
      * right. exact Hps.
Qed.

Lemma Split_count (s : string) (sep : ascii) :
  length (strings.Split s sep) = S (count_byte s sep).
Proof.
  induction s as [|c s IH]; simpl; [reflexivity|].
  destruct (Ascii.eqb c sep); simpl; [rewrite IH; reflexivity|].
  destruct (Split_cons s sep) as (p & ps & Hs). rewrite Hs in *. exact IH.
Qed.

Lemma Split_concat (s : string) (sep : ascii) :
  String.concat (String sep EmptyString) (strings.Split s sep) = s.
Proof.
  induction s as [|c s IH]; [reflexivity|]. cbn [strings.Split].
  destruct (Split_cons s sep) as (p & ps & Hs). rewrite Hs in *.
  destruct (Ascii.eqb_spec c sep) as [->|Hne].
  - change (String.concat (String sep EmptyString) (EmptyString :: p :: ps))
      with (String sep (String.concat (String sep EmptyString) (p :: ps))).
    rewrite IH. reflexivity.
  - destruct ps as [|q qs].
    + simpl in *. congruence.
    + change (String.concat (String sep EmptyString) (String c p :: q :: qs))
        with (String c (String.concat (String sep EmptyString) (p :: q :: qs))).
      rewrite IH. reflexivity.
Qed.

(** X1: the fields that [AllowedPortsFromCSV] converts are the stretches
    of the string between its commas: there is one more of them than
    there are commas, none holds a comma, and joined by commas they give
    the string back; a handler built from the string has one allowed
    port for each. *)
Theorem csv_fields_between_commas (csv : string) :
  String.concat "," (strings.Split csv ",") = csv
  /\ length (strings.Split csv ",") = S (count_byte csv ",")
  /\ Forall (fun fld => net.contains fld "," = false) (strings.Split csv ",")
  /\ forall n h,
       New (Some n) [AllowedPortsFromCSV csv] = (Some h, None) ->
       length (allowedPorts h) = S (count_byte csv ",").
Proof.
  split; [apply Split_concat|]. split; [apply Split_count|].
  split; [apply Split_fields_plain|].
  intros n h H. simpl in H. unfold AllowedPortsFromCSV in H.
  destruct (csv_loop _ _ _) as [ps|e] eqn:Hl; [|discriminate H].
  injection H as <-. simpl. apply csv_loop_length in Hl.
  rewrite Hl, length_replicate. apply Split_count.
Qed.

Lemma csv_fields_between_commas_witness :
  length (allowedPorts (mkHandler 7%nat 0 [80; 443; 8443]))
  = S (count_byte "80,443,8443" ",").
Proof.
  apply (proj2 (proj2 (proj2 (csv_fields_between_commas "80,443,8443")))
           7%nat).
  reflexivity.
Defined.

Lemma digits_value_bytes (s : string) (c : ascii) :
  forall acc v,
    digits_value s acc = Some v ->
    net.contains s c = true -> is_digit c = true.
Proof.
  induction s as [|x s IH]; intros acc v H Hc; [discriminate Hc|].
  simpl in H. destruct (is_digit x) eqn:Hx; [|discriminate H].
  destruct (Ascii.eqb_spec x c) as [<-|Hne]; [exact Hx|].
  eapply IH; [exact H|].
  destruct (net.contains s c) eqn:E; [reflexivity|].
  assert (net.contains (String x s) c = false)
    by (apply contains_false_cons; split; [apply Ascii.eqb_neq|]; assumption).
  congruence.
Qed.

Lemma unsigned_literal_bytes (s : string) (c : ascii) (v : Z) :
  unsigned_literal s = Some v ->
  net.contains s c = true -> is_digit c = true.
Proof.
  destruct s; [discriminate|]. unfold unsigned_literal.
  apply digits_value_bytes.
Qed.

(** An integer literal is made of digits and signs. *)
Lemma int_literal_bytes (s : string) (c : ascii) (v : Z) :
  int_literal s = Some v ->
  net.contains s c = true ->
  is_digit c = true \/ c = "+"%char \/ c = "-"%char.
Proof.
  destruct s as [|x s]; [discriminate|]. unfold int_literal.
  intros H Hc.
  assert (forall u, unsigned_literal s = Some u ->
                    Ascii.eqb x c = true \/ is_digit c = true) as Hrest.
  { intros u Hu. destruct (Ascii.eqb x c) eqn:E; [auto|]. right.
    eapply unsigned_literal_bytes; [exact Hu|].
    destruct (net.contains s c) eqn:E'; [reflexivity|].
    assert (net.contains (String x s) c = false)
      by (apply contains_false_cons; auto).
    congruence. }
  destruct (Ascii.eqb_spec x "+") as [->|].
  { destruct (Hrest v H) as [E|]; [apply Ascii.eqb_eq in E|]; auto. }
  destruct (Ascii.eqb_spec x "-") as [->|].
  { destruct (unsigned_literal s) as [u|] eqn:Hu; [|discriminate H].
    destruct (Hrest u eq_refl) as [E|]; [apply Ascii.eqb_eq in E|]; auto. }
  left. eapply unsigned_literal_bytes; eauto.
Qed.

(** X2: a string of allowed ports that holds any byte other than a
    decimal digit, a sign or a comma (a space, a letter, a semicolon)
    makes [New] fail, wherever the setter stands among the others. *)
Theorem csv_foreign_byte_fails (csv : string) (c : ascii) :
  net.contains csv c = true ->
  csv_byte c = false ->
  forall next pre post,
  exists e, New next (pre ++ AllowedPortsFromCSV csv :: post) = (None, Some e).
Proof.
  intros Hc Hb next pre post. apply New_csv_fails.
  unfold csv_byte in Hb.
  apply orb_false_iff in Hb as [Hb Hcomma].
  apply orb_false_iff in Hb as [Hb Hminus].
  apply orb_false_iff in Hb as [Hdigit Hplus].
  rewrite Ascii.eqb_sym in Hcomma.
  pose proof (Split_covers csv "," c Hc) as HE.
  rewrite Ascii.eqb_sym in HE. specialize (HE Hcomma).
  eapply Exists_impl; [exact HE|].
  intros fld Hfld [v [Hv _]].
  destruct (int_literal_bytes fld c v Hv Hfld) as [H|[->| ->]];
    [congruence | discriminate Hplus | discriminate Hminus].
Qed.

Lemma csv_foreign_byte_fails_witness :
  exists e, New (Some 7%nat) ([] ++ AllowedPortsFromCSV "80, 443" :: [])
            = (None, Some e).
Proof.
  apply (csv_foreign_byte_fails "80, 443" " " eq_refl eq_refl).
Defined.

(** X3: a string of allowed ports with an empty field, that is one that
    ends in a comma, begins with a comma or has two commas in a row,
    makes [New] fail. *)
Theorem csv_empty_field_fails (csv a b : string) :
  csv = a +:+ "," \/ csv = String "," b \/ csv = a +:+ String "," (String "," b) ->
  forall next pre post,
  exists e, New next (pre ++ AllowedPortsFromCSV csv :: post) = (None, Some e).
Proof.
  intros Hshape next pre post. apply New_csv_fails.
  assert (In EmptyString (strings.Split csv ",")) as Hin.
  { destruct Hshape as [-> | [-> | ->]].
    - rewrite Split_app_sep. apply in_or_app. right. left. reflexivity.
    - simpl. left. reflexivity.
    - rewrite Split_app_sep. apply in_or_app. right. simpl. left. reflexivity. }
  apply Exists_exists. exists EmptyString.
  split; [apply list_elem_of_In; exact Hin|].
  intros [v [Hv _]]. discriminate Hv.
Qed.

Lemma csv_empty_field_fails_witness :
  exists e, New (Some 7%nat) ([] ++ AllowedPortsFromCSV "80,443," :: [])
            = (None, Some e).
Proof.
  apply (csv_empty_field_fails "80,443," "80,443" "" (or_introl eq_refl)).
Defined.

(** ** Construction, further *)

(** X4: [New] runs the setters in order and stops at the first that
    fails: when the setters before [s] build [f'] and [s] fails on [f']
    with [e], [New] returns no handler and the error [e], whatever
    setters follow. *)
Theorem New_stops_at_first_error (n : Handler) (pre post : list optSetter)
    (s : optSetter) (f' f'' : HTTPConnectHandler) (e : error) :
  New (Some n) pre = (Some f', None) ->
  s f' = (f'', Some e) ->
  New (Some n) (pre ++ s :: post) = (None, Some e).
Proof.
  simpl. intros Hpre Hs. rewrite apply_setters_app, Hpre. simpl.
  rewrite Hs. reflexivity.
Qed.

Lemma New_stops_at_first_error_witness :
  New (Some 7%nat)
    ([IdleTimeoutSetter Second] ++ AllowedPortsFromCSV "http"
       :: [AllowedPorts [443]])
  = (None, Some (NumSyntax "Atoi" "http")).
Proof.
  apply (New_stops_at_first_error 7%nat [IdleTimeoutSetter Second]
           [AllowedPorts [443]] (AllowedPortsFromCSV "http")
           (mkHandler 7%nat Second []) (mkHandler 7%nat Second [])
           (NumSyntax "Atoi" "http") eq_refl eq_refl).
Defined.

Lemma package_setter_next (s : optSetter) (f : HTTPConnectHandler) :
  package_setter s -> next (fst (s f)) = next f.
Proof.
  intros [[i ->]|[[ports ->]|[csv ->]]]; try reflexivity.
  unfold AllowedPortsFromCSV. destruct (csv_loop _ _ _); reflexivity.
Qed.

Lemma apply_setters_next (setters : list optSetter) :
  Forall package_setter setters ->
  forall f h err,
    apply_setters setters f = (Some h, err) -> next h = next f.
Proof.
  induction 1 as [|s rest Hs _ IH]; intros f h err H; simpl in H.
  - injection H as <- _. reflexivity.
  - pose proof (package_setter_next s f Hs) as Hn.
    destruct (s f) as [f1 [e|]]; [discriminate H|].
    simpl in Hn. rewrite <- Hn. eapply IH. exact H.
Qed.

(** X5: none of the three setters of the package touches the next
    handler: a handler that [New] builds with them delegates to the
    handler that [New] was given. *)
Theorem New_keeps_next (n : Handler) (setters : list optSetter)
    (h : HTTPConnectHandler) (err : option error) :
  Forall package_setter setters ->
  New (Some n) setters = (Some h, err) ->
  next h = n.
Proof.
  intros HF H. simpl in H.
  apply (apply_setters_next setters HF) in H. exact H.
Qed.

Lemma New_keeps_next_witness :
  next (mkHandler 7%nat Second [443; 8443]) = 7%nat.
Proof.
  apply (New_keeps_next 7%nat
           [AllowedPorts [80]; IdleTimeoutSetter Second;
            AllowedPortsFromCSV "443,8443"]
           (mkHandler 7%nat Second [443; 8443]) None).
  - constructor; [right; left; eexists; reflexivity|].
    constructor; [left; eexists; reflexivity|].
    constructor; [right; right; eexists; reflexivity|].
    constructor.
  - reflexivity.
Defined.

(** X6: among the setters given to [New], a later list of allowed ports
    replaces an earlier one, and the idle-timeout setter and the
    allowed-ports setter can be swapped. *)
Theorem New_setters_compose (next : option Handler)
    (pre post : list optSetter) (a b : list Z) (i : Duration) :
  New next (pre ++ AllowedPorts a :: AllowedPorts b :: post)
  = New next (pre ++ AllowedPorts b :: post)
  /\ New next (pre ++ IdleTimeoutSetter i :: AllowedPorts a :: post)
     = New next (pre ++ AllowedPorts a :: IdleTimeoutSetter i :: post).
Proof.
  destruct next as [n|]; simpl; [|auto].
  rewrite !apply_setters_app.
  destruct (apply_setters pre (mkHandler n 0 [])) as [[f'|] err];
    simpl; auto.
Qed.

(** ** Serving a request, further *)

Lemma portAllowed_false (f : HTTPConnectHandler) (w : ResponseWriter)
    (req : Request) :
  snd (portAllowed f w req) = false ->
  exists status reason,
    (status = 400 \/ status = 403)
    /\ fst (portAllowed f w req)
       = checking f req :: ServeError f w req status reason.
Proof.
  unfold portAllowed. destruct (allowedPorts f) as [|p ps]; [discriminate|].
  destruct (net.SplitHostPort (Host req)) as [[h ps']|e].
  - destruct (strconv.Atoi ps') as [port|e].
    + destruct (port_in port (p :: ps)); [discriminate|].
      intros _. exists 403, "Port not allowed". auto.
    + intros _. exists 400, "Invalid port". auto.
  - intros _. exists 400, "No port field in Request-URI / Host header". auto.
Qed.

(** The ways a call of [ServeHTTP] can go. *)
Lemma ServeHTTP_cases (f : HTTPConnectHandler) (world : World)
    (w : ResponseWriter) (req : Request) :
  let pre := received world req ++ fst (portAllowed f w req) in
  let dialed := DialTimeout world "tcp" (Host req) (10 * Second) in
  (Method req <> "CONNECT"
   /\ ServeHTTP f world w req = ([NextServeHTTP (next f) w req], Returned))
  \/ (Method req = "CONNECT" /\ snd (portAllowed f w req) = false
      /\ ServeHTTP f world w req = (pre ++ [OpExit], Returned))
  \/ (Method req = "CONNECT" /\ snd (portAllowed f w req) = true
      /\ ((Hijacker w = None
           /\ ServeHTTP f world w req
              = (pre ++ [Respond 200 None; OpExit], Panicked))
          \/ (exists err,
                Hijacker w = Some (Err err)
                /\ ServeHTTP f world w req
                   = (pre ++ [Respond 200 None; HijackCall (Err err);
                              OpErrorf "Unable to hijack connection: %s"
                                [AErr err];
                              Respond 502
                                (Some ("Unable to hijack connection: %s",
                                       [AErr err]));
                              OpExit],
                      Returned))
          \/ (exists c err,
                Hijacker w = Some (Ok c) /\ dialed = Err err
                /\ ServeHTTP f world w req
                   = (pre ++ [Respond 200 None; HijackCall (Ok c);
                              DialCall "tcp" (Host req) (10 * Second) dialed;
                              OpErrorf "Unable to dial %v: %v"
                                [AStr (Host req); AErr err];
                              OpExit],
                      Returned))
          \/ (exists c raw,
                Hijacker w = Some (Ok c) /\ dialed = Ok raw
                /\ ServeHTTP f world w req
                   = (pre ++ [Respond 200 None; HijackCall (Ok c);
                              DialCall "tcp" (Host req) (10 * Second) dialed;
                              IdleTimingWrap raw (idleTimeout f)],
                      Tunnel c raw (idleTimeout f))))).
Proof.
  intros pre dialed. subst pre.
  destruct (String.eqb_spec (Method req) "CONNECT") as [HM|HM].
  2:{ left. split; [exact HM|]. unfold ServeHTTP.
      apply String.eqb_neq in HM. rewrite HM. reflexivity. }
  right. rewrite (ServeHTTP_CONNECT f world w req HM).
  destruct (portAllowed f w req) as [checked [|]]; cbn [fst snd].
  2:{ left. split; [exact HM|]. rewrite <- app_assoc. split; reflexivity. }
  right. split; [exact HM|]. split; [reflexivity|].
  unfold intercept. fold dialed.
  destruct (Hijacker w) as [[c|err]|]; cbn [RespondOK RespondBadGateway fst snd].
  - destruct dialed as [raw|err] eqn:HD.
    + right. right. right. exists c, raw.
      repeat split; rewrite <- ?app_assoc; reflexivity.
    + right. right. left. exists c, err.
      repeat split; rewrite <- ?app_assoc; reflexivity.
  - right. left. exists err. repeat split; rewrite <- ?app_assoc; reflexivity.
  - left. repeat split; rewrite <- ?app_assoc; reflexivity.
Qed.

(** X7: a CONNECT request that the authorizer refuses gets exactly one
    status line, 400 or 403, with its reason, and the call returns: no
    success response, no hijack, no dial. *)
Theorem refusal_is_final (f : HTTPConnectHandler) (world : World)
    (w : ResponseWriter) (req : Request) :
  Method req = "CONNECT" ->
  snd (portAllowed f w req) = false ->
  exists status reason,
    (status = 400 \/ status = 403)
    /\ ServeHTTP f world w req
       = (received world req
          ++ [checking f req;
              OpErrorf "Respond error to CONNECT request to %s: %d %v"
                [AStr (Host req); AInt status; AStr reason];
              Log LError "Respond error to CONNECT request to %s: %d %v"
                [AStr (Host req); AInt status; AStr reason];
              WriteHeader status;
              Fprintf "%v" reason;
              OpExit],
          Returned).
Proof.
  intros HM HA.
  destruct (portAllowed_false f w req HA) as (status & reason & Hst & Hev).
  exists status, reason. split; [exact Hst|].
  rewrite (ServeHTTP_CONNECT f world w req HM).
  destruct (portAllowed f w req) as [checked allowed]. simpl in *.
  subst allowed checked. reflexivity.
Qed.

Lemma refusal_is_final_witness :
  exists status reason,
    (status = 400 \/ status = 403)
    /\ ServeHTTP (sample_handler [443]) (sample_world (Ok (NetConn 2)))
         (sample_writer (Some (Ok (NetConn 1)))) (connect_to "example.com:80")
       = (received (sample_world (Ok (NetConn 2))) (connect_to "example.com:80")
          ++ [checking (sample_handler [443]) (connect_to "example.com:80");
              OpErrorf "Respond error to CONNECT request to %s: %d %v"
                [AStr "example.com:80"; AInt status; AStr reason];
              Log LError "Respond error to CONNECT request to %s: %d %v"
                [AStr "example.com:80"; AInt status; AStr reason];
              WriteHeader status;
              Fprintf "%v" reason;
              OpExit],
          Returned).
Proof.
  apply (refusal_is_final (sample_handler [443]) (sample_world (Ok (NetConn 2)))
           (sample_writer (Some (Ok (NetConn 1))))
           (connect_to "example.com:80") eq_refl eq_refl).
Defined.

Lemma received_no_status (world : World) (req : Request) :
  omap status_of (received world req) = [].
Proof. unfold received. destruct (IsTraceEnabled world); reflexivity. Qed.

(** X8: every CONNECT request that the authorizer lets through is
    answered with the success status 200 before anything else is
    written, and before the hijack and the dial are tried, so also when
    these then fail. *)
Theorem success_response_first (f : HTTPConnectHandler) (world : World)
    (w : ResponseWriter) (req : Request) :
  Method req = "CONNECT" ->
  snd (portAllowed f w req) = true ->
  exists before rest,
    fst (ServeHTTP f world w req) = before ++ Respond 200 None :: rest
    /\ forall e, In e before ->
                 status_of e = None /\ is_hijack e = false
                 /\ is_dial e = false.
Proof.
  intros HM HA.
  exists (received world req ++ fst (portAllowed f w req)).
  assert (forall e,
             In e (received world req ++ fst (portAllowed f w req)) ->
             status_of e = None /\ is_hijack e = false /\ is_dial e = false)
    as Hbefore.
  { intros e He. apply in_app_or in He as [He|He].
    - unfold received in He. destruct (IsTraceEnabled world); simpl in He;
        repeat (destruct He as [<-|He]; [auto|]); contradiction.
    - destruct (portAllowed_true f w req HA) as [E|E]; rewrite E in He;
        simpl in He; repeat (destruct He as [<-|He]; [auto|]); contradiction. }
  destruct (ServeHTTP_cases f world w req)
    as [[HN _]|[(_ & HF & _)|(_ & _ & [[_ ->]|[(err & _ & ->)|
         [(c & err & _ & _ & ->)|(c & raw & _ & _ & ->)]]])]];
    try congruence; cbn [fst]; eexists; (split; [reflexivity | exact Hbefore]).
Qed.

Lemma success_response_first_witness :
  exists before rest,
    fst (ServeHTTP (sample_handler [443]) (sample_world (Err (IOError 9)))
           (sample_writer (Some (Ok (NetConn 1))))
           (connect_to "example.com:443"))
    = before ++ Respond 200 None :: rest
    /\ forall e, In e before ->
                 status_of e = None /\ is_hijack e = false
                 /\ is_dial e = false.
Proof.
  apply (success_response_first (sample_handler [443])
           (sample_world (Err (IOError 9)))
           (sample_writer (Some (Ok (NetConn 1))))
           (connect_to "example.com:443") eq_refl eq_refl).
Defined.

(** What comes before the tunnel is attempted holds no hijack and no
    dial, and no status but that of a refusal. *)
Lemma pre_quiet (f : HTTPConnectHandler) (world : World)
    (w : ResponseWriter) (req : Request) (e : event) :
  In e (received world req ++ fst (portAllowed f w req)) ->
  is_dial e = false /\ is_hijack e = false.
Proof.
  intros He. apply in_app_or in He as [He|He].
  - unfold received in He. destruct (IsTraceEnabled world); simpl in He;
      repeat (destruct He as [<-|He]; [auto|]); contradiction.
  - destruct (snd (portAllowed f w req)) eqn:HA.
    + destruct (portAllowed_true f w req HA) as [E|E]; rewrite E in He;
        simpl in He; repeat (destruct He as [<-|He]; [auto|]); contradiction.
    + destruct (portAllowed_false f w req HA) as (st & rs & _ & E).
      rewrite E in He. simpl in He.
      repeat (destruct He as [<-|He]; [auto|]); contradiction.
Qed.

(** X9: whatever the request, the only address that [ServeHTTP] ever
    dials is the host of the request, over tcp and with the timeout of
    ten seconds, and it dials only on a CONNECT request that the
    authorizer has let through and whose hijack has succeeded. *)
Theorem dials_only_the_target (f : HTTPConnectHandler) (world : World)
    (w : ResponseWriter) (req : Request) (e : event) :
  In e (fst (ServeHTTP f world w req)) ->
  is_dial e = true ->
  e = DialCall "tcp" (Host req) 10000000000
        (DialTimeout world "tcp" (Host req) 10000000000)
  /\ Method req = "CONNECT"
  /\ snd (portAllowed f w req) = true
  /\ exists c, Hijacker w = Some (Ok c).
Proof.
  intros He Hd.
  assert (forall tail,
             In e ((received world req ++ fst (portAllowed f w req)) ++ tail) ->
             In e tail) as Htail.
  { intros tail H. apply in_app_or in H as [H|H]; [|exact H].
    apply pre_quiet in H as [H _]. congruence. }
  destruct (ServeHTTP_cases f world w req)
    as [[_ E]|[(_ & _ & E)|(HM & HA & [[_ E]|[(err & _ & E)|
         [(c & err & HH & _ & E)|(c & raw & HH & _ & E)]]])]];
    rewrite E in He; cbn [fst] in He; try apply Htail in He; simpl in He;
    repeat (destruct He as [<-|He]; [try discriminate Hd|]);
    try contradiction; eauto 6.
Qed.

Lemma dials_only_the_target_witness :
  DialCall "tcp" "example.com:443" 10000000000 (Ok (NetConn 2))
  = DialCall "tcp" (Host (connect_to "example.com:443")) 10000000000
      (DialTimeout (sample_world (Ok (NetConn 2))) "tcp"
         (Host (connect_to "example.com:443")) 10000000000)
  /\ Method (connect_to "example.com:443") = "CONNECT"
  /\ snd (portAllowed (sample_handler [443])
            (sample_writer (Some (Ok (NetConn 1))))
            (connect_to "example.com:443")) = true
  /\ exists c, Hijacker (sample_writer (Some (Ok (NetConn 1)))) = Some (Ok c).
Proof.
  apply (dials_only_the_target (sample_handler [443])
           (sample_world (Ok (NetConn 2)))
           (sample_writer (Some (Ok (NetConn 1))))
           (connect_to "example.com:443")).
  - simpl. tauto.
  - reflexivity.
Defined.

(** X10: the relay is entered exactly on a CONNECT request that the
    authorizer lets through, whose hijack succeeds and whose dial
    succeeds; it then runs on the hijacked connection and on the dialed
    one under the idle timeout of the handler, after the success
    response, the hijack, the dial and the wrapping, in this order. *)
Theorem tunnel_iff (f : HTTPConnectHandler) (world : World)
    (w : ResponseWriter) (req : Request) (evs : list event)
    (c raw : Conn) (t : Duration) :
  ServeHTTP f world w req = (evs, Tunnel c raw t)
  <->
  (Method req = "CONNECT"
   /\ snd (portAllowed f w req) = true
   /\ Hijacker w = Some (Ok c)
   /\ DialTimeout world "tcp" (Host req) 10000000000 = Ok raw
   /\ t = idleTimeout f
   /\ evs = (received world req ++ fst (portAllowed f w req))
            ++ [Respond 200 None; HijackCall (Ok c);
                DialCall "tcp" (Host req) 10000000000 (Ok raw);
                IdleTimingWrap raw t]).
Proof.
  destruct (ServeHTTP_cases f world w req)
    as [[HN E]|[(HM & HA & E)|(HM & HA & [[HH E]|[(err & HH & E)|
         [(c' & err & HH & HD & E)|(c' & raw' & HH & HD & E)]]])]];
    rewrite E; change (10 * Second) with 10000000000 in *;
    (split;
     [intros H; try discriminate H | intros (H1 & H2 & H3 & H4 & H5 & H6)]);
    try congruence.
  injection H as <- <- <- <-. rewrite HD. repeat split; auto.
Qed.

(** X11: the trace level of the logger changes nothing but the one
    message at the head of the events of a CONNECT request: the outcome
    and all other events are the same with it on and off. *)
Theorem trace_level_is_silent (f : HTTPConnectHandler)
    (dial : string -> string -> Duration -> result Conn)
    (w : ResponseWriter) (req : Request) :
  snd (ServeHTTP f (mkWorld true dial) w req)
  = snd (ServeHTTP f (mkWorld false dial) w req)
  /\ fst (ServeHTTP f (mkWorld true dial) w req)
     = (if String.eqb (Method req) "CONNECT" then
          [Log LTrace "HTTPConnectHandler Middleware received request:\n%s"
             [AReq req]]
        else [])
       ++ fst (ServeHTTP f (mkWorld false dial) w req).
Proof.
  unfold ServeHTTP, received.
  destruct (String.eqb (Method req) "CONNECT"); simpl; [|auto].
  destruct (portAllowed f w req) as [checked [|]]; simpl; [|auto].
  change (intercept f (mkWorld true dial) w req)
    with (intercept f (mkWorld false dial) w req).
  destruct (intercept f (mkWorld false dial) w req) as [evs [| |? ? ?]];
    simpl; auto.
Qed.


Lemma portAllowed_statuses (f : HTTPConnectHandler) (w : ResponseWriter)
    (req : Request) :
  (snd (portAllowed f w req) = true
   /\ omap status_of (fst (portAllowed f w req)) = [])
  \/ (snd (portAllowed f w req) = false
      /\ (omap status_of (fst (portAllowed f w req)) = [400]
          \/ omap status_of (fst (portAllowed f w req)) = [403])).
Proof.
  destruct (snd (portAllowed f w req)) eqn:HA.
  - left. split; [reflexivity|].
    destruct (portAllowed_true f w req HA) as [-> | ->]; reflexivity.
  - right. split; [reflexivity|].
    destruct (portAllowed_false f w req HA) as (st & rs & [-> | ->] & ->);
      cbn; auto.
Qed.

(** X13: the status lines that one call of [ServeHTTP] writes are, in
    order, none at all (exactly when the method is not CONNECT), or 400,
    or 403, or 200, or 200 followed by 502; nothing else ever. *)
Theorem statuses_written (f : HTTPConnectHandler) (world : World)
    (w : ResponseWriter) (req : Request) :
  let statuses := omap status_of (fst (ServeHTTP f world w req)) in
  (statuses = [] <-> Method req <> "CONNECT")
  /\ (statuses = [] \/ statuses = [400] \/ statuses = [403]
      \/ statuses = [200] \/ statuses = [200; 502]).
Proof.
  cbv zeta.
  destruct (ServeHTTP_cases f world w req)
    as [[HN E]|[(HM & HA & E)|(HM & HA & [[HH E]|[(err & HH & E)|
         [(c' & err & HH & HD & E)|(c' & raw' & HH & HD & E)]]])]];
    rewrite E; cbn [fst]; rewrite ?omap_app, ?received_no_status;
    destruct (portAllowed_statuses f w req) as [[HA' Hs]|[HA' [Hs|Hs]]];
    rewrite ?Hs; try congruence; cbn;
    (split; [split; congruence|]); auto 6.
Qed.

(** ** Targets *)

Lemma LastIndexByte_none (s : string) (c : ascii) :
  net.contains s c = false -> strings.LastIndexByte s c = None.
Proof.
  induction s as [|x s IH]; [reflexivity|].
  intros H. apply contains_false_cons in H as [Hx Hs].
  simpl. rewrite (IH Hs), Hx. reflexivity.
Qed.

Lemma LastIndexByte_app (a b : string) (c : ascii) :
  net.contains b c = false ->
  strings.LastIndexByte (a +:+ String c b) c = Some (String.length a).
Proof.
  intros Hb. induction a as [|x a IH]; simpl.
  - rewrite (LastIndexByte_none b c Hb), Ascii.eqb_refl. reflexivity.
  - rewrite IH. reflexivity.
Qed.

Lemma take_app (a b : string) : strings.take (String.length a) (a +:+ b) = a.
Proof. induction a as [|x a IH]; simpl; [destruct b|rewrite IH]; reflexivity. Qed.

Lemma drop_app (a b : string) : strings.drop (String.length a) (a +:+ b) = b.
Proof. induction a as [|x a IH]; simpl; [reflexivity | exact IH]. Qed.

Lemma drop_app_S (a b : string) (c : ascii) :
  strings.drop (S (String.length a)) (a +:+ String c b) = b.
Proof. induction a as [|x a IH]; simpl; [destruct b; reflexivity | exact IH]. Qed.

Lemma bracket_match {T : Type} (c : ascii) (rest : string) (A B : T) :
  match String c rest with
  | String "[" _ => A
  | _ => B
  end = if Ascii.eqb c "[" then A else B.
Proof. destruct c as [[] [] [] [] [] [] [] []]; reflexivity. Qed.

Lemma plain_spec (s : string) :
  plain s = true <->
  net.contains s ":" = false /\ net.contains s "[" = false
  /\ net.contains s "]" = false.
Proof.
  unfold plain. rewrite !andb_true_iff, !negb_true_iff. tauto.
Qed.

(** A plain host and a plain port, joined by a colon, split again into
    the two. *)
Lemma SplitHostPort_plain (host port : string) :
  plain host = true ->
  plain port = true ->
  net.SplitHostPort (target host port) = Ok (host, port).
Proof.
  intros Hh Hp.
  apply plain_spec in Hh as (Hh1 & Hh2 & Hh3).
  apply plain_spec in Hp as (Hp1 & Hp2 & Hp3).
  assert (net.contains (target host port) "[" = false) as Hb1.
  { unfold target. rewrite contains_app, Hh2.
    apply contains_false_cons. auto. }
  assert (net.contains (target host port) "]" = false) as Hb2.
  { unfold target. rewrite contains_app, Hh3.
    apply contains_false_cons. auto. }
  assert (exists x rest, target host port = String x rest
                         /\ Ascii.eqb x "[" = false) as (x & rest & Hx & Hxb).
  { unfold target. destruct host as [|x h]; simpl.
    - exists ":"%char, port. auto.
    - exists x, (h +:+ String ":" port).
      apply contains_false_cons in Hh2 as [? _]. auto. }
  pose proof (LastIndexByte_app host port ":" Hp1) as HL.
  pose proof (take_app host (String ":" port)) as HT.
  pose proof (drop_app_S host port ":") as HD.
  fold (target host port) in HL, HT, HD.
  unfold net.SplitHostPort. rewrite HL.
  revert HT HD Hb1 Hb2. rewrite Hx. intros HT HD Hb1 Hb2.
  rewrite (bracket_match x rest), Hxb, HT, Hh1.
  change (strings.drop 0 (String x rest)) with (String x rest).
  rewrite Hb1, Hb2, HD. reflexivity.
Qed.

(** A text that [strconv.Atoi] accepts is plain. *)
Lemma Atoi_plain (s : string) (v : Z) :
  strconv.Atoi s = Ok v -> plain s = true.
Proof.
  intros H. apply Atoi_spec in H as [H _].
  apply plain_spec.
  assert (forall c, is_digit c = false -> c <> "+"%char -> c <> "-"%char ->
                    net.contains s c = false) as Hc.
  { intros c H1 H2 H3. destruct (net.contains s c) eqn:E; [|reflexivity].
    destruct (int_literal_bytes s c v H E) as [?|[?|?]]; congruence. }
  repeat split; apply Hc; (reflexivity || discriminate).
Qed.

(** X14: with a non-empty list of allowed ports, a CONNECT request whose
    target holds no colon at all is answered with status 400 and the
    message about the missing port field, whatever else the target is. *)
Theorem no_colon_is_bad_request (f : HTTPConnectHandler) (world : World)
    (w : ResponseWriter) (req : Request) :
  Method req = "CONNECT" ->
  allowedPorts f <> [] ->
  net.contains (Host req) ":" = false ->
  ServeHTTP f world w req
  = (received world req
     ++ [checking f req;
         OpErrorf "Respond error to CONNECT request to %s: %d %v"
           [AStr (Host req); AInt 400;
            AStr "No port field in Request-URI / Host header"];
         Log LError "Respond error to CONNECT request to %s: %d %v"
           [AStr (Host req); AInt 400;
            AStr "No port field in Request-URI / Host header"];
         WriteHeader 400;
         Fprintf "%v" "No port field in Request-URI / Host header";
         OpExit],
     Returned).
Proof.
  intros HM Hne Hc. rewrite (ServeHTTP_CONNECT f world w req HM).
  unfold portAllowed. destruct (allowedPorts f); [congruence|].
  unfold net.SplitHostPort. rewrite (LastIndexByte_none _ _ Hc). reflexivity.
Qed.

Lemma no_colon_is_bad_request_witness :
  In (WriteHeader 400)
    (fst (ServeHTTP (sample_handler [443]) (sample_world (Ok (NetConn 2)))
            (sample_writer None) (connect_to "localhost"))).
Proof.
  rewrite (no_colon_is_bad_request (sample_handler [443])
             (sample_world (Ok (NetConn 2))) (sample_writer None)
             (connect_to "localhost") eq_refl ltac:(discriminate) eq_refl).
  simpl. tauto.
Defined.

(** X15: with a non-empty list of allowed ports, a target made of a
    plain host (no colon, no bracket), a colon and a port text that
    converts to the integer [port] is authorized exactly when [port] is
    in the list; neither the host nor the spelling of the port (a sign,
    leading zeros) plays a part. *)
Theorem plain_target_decision (f : HTTPConnectHandler) (w : ResponseWriter)
    (method host portString : string) (port : Z) :
  allowedPorts f <> [] ->
  plain host = true ->
  strconv.Atoi portString = Ok port ->
  (snd (portAllowed f w (mkRequest method (target host portString))) = true
   <-> In port (allowedPorts f)).
Proof.
  intros Hne Hh Ha.
  unfold portAllowed. destruct (allowedPorts f) as [|p ps] eqn:E;
    [congruence|].
  cbn [Host].
  rewrite (SplitHostPort_plain host portString Hh (Atoi_plain _ _ Ha)), Ha.
  rewrite <- port_in_In.
  destruct (port_in port (p :: ps)); simpl; split; congruence.
Qed.

Lemma plain_target_decision_witness :
  snd (portAllowed (sample_handler [443; 8443]) (sample_writer None)
         (mkRequest "CONNECT" (target "example.com" "+0443"))) = true
  <-> In 443 [443; 8443].
Proof.
  apply (plain_target_decision (sample_handler [443; 8443])
           (sample_writer None) "CONNECT" "example.com" "+0443" 443
           ltac:(discriminate) eq_refl eq_refl).
Defined.

(** X16: with a non-empty list of allowed ports, a CONNECT request to a
    plain host followed by a colon and a plain text that does not
    convert to an integer (nothing at all, a service name, digits out of
    the range of [int]) is answered with status 400 and the message
    "Invalid port". *)
Theorem plain_target_bad_port (f : HTTPConnectHandler) (world : World)
    (w : ResponseWriter) (host portString : string) (e : error) :
  allowedPorts f <> [] ->
  plain host = true ->
  plain portString = true ->
  strconv.Atoi portString = Err e ->
  ServeHTTP f world w (connect_to (target host portString))
  = (received world (connect_to (target host portString))
     ++ [checking f (connect_to (target host portString));
         OpErrorf "Respond error to CONNECT request to %s: %d %v"
           [AStr (target host portString); AInt 400; AStr "Invalid port"];
         Log LError "Respond error to CONNECT request to %s: %d %v"
           [AStr (target host portString); AInt 400; AStr "Invalid port"];
         WriteHeader 400;
         Fprintf "%v" "Invalid port";
         OpExit],
     Returned).
Proof.
  intros Hne Hh Hp Ha.
  rewrite ServeHTTP_CONNECT by reflexivity.
  unfold portAllowed. destruct (allowedPorts f) as [|p ps]; [congruence|].
  cbn [Host connect_to].
  rewrite (SplitHostPort_plain host portString Hh Hp), Ha. reflexivity.
Qed.

Lemma plain_target_bad_port_witness :
  In (Fprintf "%v" "Invalid port")
    (fst (ServeHTTP (sample_handler [443]) (sample_world (Ok (NetConn 2)))
            (sample_writer None) (connect_to (target "example.com" "")))).
Proof.
  rewrite (plain_target_bad_port (sample_handler [443])
             (sample_world (Ok (NetConn 2))) (sample_writer None)
             "example.com" "" (NumSyntax "Atoi" "")
             ltac:(discriminate) eq_refl eq_refl eq_refl).
  simpl. tauto.
Defined.

(** X17: the decision of the authorizer depends on the list of allowed
    ports only through the set of its entries: two handlers whose lists
    have the same entries, in any order and with any repetitions, decide
    every request alike; and putting more ports into a non-empty list
    never turns an allowed request into a refused one. *)
Theorem decision_by_set_of_ports (f g : HTTPConnectHandler)
    (w : ResponseWriter) (req : Request) :
  ((forall p, In p (allowedPorts f) <-> In p (allowedPorts g)) ->
   snd (portAllowed f w req) = snd (portAllowed g w req))
  /\ (allowedPorts f <> [] ->
      (forall p, In p (allowedPorts f) -> In p (allowedPorts g)) ->
      snd (portAllowed f w req) = true ->
      snd (portAllowed g w req) = true).
Proof.
  assert (forall h : HTTPConnectHandler,
             allowedPorts h <> [] ->
             snd (portAllowed h w req)
             = match net.SplitHostPort (Host req) with
               | Ok (_, ps) =>
                   match strconv.Atoi ps with
                   | Ok port => port_in port (allowedPorts h)
                   | Err _ => false
                   end
               | Err _ => false
               end) as Hsnd.
  { intros h Hh. unfold portAllowed.
    destruct (allowedPorts h) as [|p ps]; [congruence|].
    destruct (net.SplitHostPort (Host req)) as [[? ps']|?]; [|reflexivity].
    destruct (strconv.Atoi ps'); [|reflexivity].
    destruct (port_in v (p :: ps)); reflexivity. }
  split.
  - intros Hsame.
    destruct (allowedPorts f) as [|p ps] eqn:Ef.
    + destruct (allowedPorts g) as [|q qs] eqn:Eg.
      * unfold portAllowed. rewrite Ef, Eg. reflexivity.
      * exfalso. apply (proj2 (Hsame q)). left. reflexivity.
    + assert (allowedPorts g <> []) as Hg.
      { intros Eg. rewrite Eg in Hsame. apply (proj1 (Hsame p)). left.
        reflexivity. }
      rewrite (Hsnd f) by congruence. rewrite (Hsnd g) by exact Hg.
      destruct (net.SplitHostPort (Host req)) as [[? ps']|?]; [|reflexivity].
      destruct (strconv.Atoi ps') as [port|]; [|reflexivity].
      rewrite Ef.
      destruct (port_in port (p :: ps)) eqn:E1,
               (port_in port (allowedPorts g)) eqn:E2; try reflexivity.
      * apply port_in_In, Hsame, port_in_In in E1. congruence.
      * apply port_in_In, Hsame, port_in_In in E2. congruence.
  - intros Hf Hsub.
    assert (allowedPorts g <> []) as Hg.
    { destruct (allowedPorts f) as [|p ps] eqn:Ef; [congruence|].
      intros Eg. rewrite Eg in Hsub. apply (Hsub p). left. reflexivity. }
    rewrite (Hsnd f Hf), (Hsnd g Hg).
    destruct (net.SplitHostPort (Host req)) as [[? ps']|?]; [|auto].
    destruct (strconv.Atoi ps') as [port|]; [|auto].
    rewrite !port_in_In. apply Hsub.
Qed.

Lemma decision_by_set_of_ports_witness :
  snd (portAllowed (sample_handler [443; 8443]) (sample_writer None)
         (connect_to "example.com:80"))
  = snd (portAllowed (sample_handler [8443; 443; 443]) (sample_writer None)
         (connect_to "example.com:80")).
Proof.
  apply (proj1 (decision_by_set_of_ports (sample_handler [443; 8443])
                  (sample_handler [8443; 443; 443]) (sample_writer None)
                  (connect_to "example.com:80"))).
  intros p. simpl. tauto.
Defined.

(** ** The relay, further *)

(** The agreement of the control points, read off [coherent] once more
    for the states of this part. *)
Ltac coherent_facts :=
  unfold coherent in *; cbn in *;
  repeat match goal with
         | H : _ && _ = true |- _ => apply andb_true_iff in H; destruct H
         | H : (_ =? _) = true |- _ => apply Z.eqb_eq in H; subst
         | H : negb (is_nil ?r) = true |- _ => destruct r; cbn in H
         | H : false = true |- _ => discriminate H
         end.

Section RelayMore.

Variables (clientConn connOutRaw : Conn) (timeout : Duration).

Local Abbreviation connOut := (Relay.connOut connOutRaw timeout).
Local Abbreviation step := (Relay.step clientConn connOutRaw timeout).
Local Abbreviation exec := (Relay.exec clientConn connOutRaw timeout).
Local Abbreviation Inv := (Relay.Inv clientConn connOutRaw timeout).
Local Abbreviation caller_step :=
  (Relay.caller_step clientConn connOutRaw timeout).
Local Abbreviation upload_step :=
  (Relay.upload_step clientConn connOutRaw timeout).

Lemma exec_Inv (sched : list action) (s : state) :
  exec sched init = Some s -> Inv s.
Proof.
  apply Inv_exec. apply Inv_init.
Qed.

Lemma In_ops_of (t : thread) (o : op) (l : list revent) :
  In (t, o) l -> In o (ops_of t l).
Proof.
  intros H. unfold ops_of. apply in_map_iff. exists (t, o).
  split; [reflexivity|]. apply List.filter_In. split; [exact H|].
  destruct t; reflexivity.
Qed.

(** X18: the counter of the wait group is 0 or 1 in every state that
    the relay reaches, so it never goes below zero, and it is 1 exactly
    from the [Add] of the calling path to the [Done] of the upload
    task. *)
Theorem wait_group_counter (sched : list action) (s : state) :
  exec sched init = Some s ->
  (readFinished s = 0 \/ readFinished s = 1)
  /\ (readFinished s = 1 <->
      In (Caller, WgAdd 1) (log s) /\ ~ In (Upload, WgDone) (log s)).
Proof.
  intros H. apply exec_Inv in H as [Hc Hu Hcoh _].
  destruct s as [pc u wg we re e1 e2 l].
  unfold Relay.caller_hist, Relay.upload_hist in *. cbn [log readFinished] in *.
  assert (In (Caller, WgAdd 1) l <-> In (WgAdd 1) (ops_of Caller l)) as HA
    by (split; [apply In_ops_of | apply ops_of_In]).
  assert (In (Upload, WgDone) l <-> In WgDone (ops_of Upload l)) as HD
    by (split; [apply In_ops_of | apply ops_of_In]).
  rewrite HA, HD, Hc, Hu. clear HA HD Hc Hu.
  destruct pc, u; coherent_facts; split; auto;
    repeat match goal with x : option error |- _ => destruct x end;
    cbn; split; try lia; try tauto;
    try (intros [[]  _]; fail);
    try (intros _; split; [tauto | intros H; repeat (destruct H as [H|H];
           [discriminate H|]); exact H]);
    try (intros [_ HN]; exfalso; apply HN; tauto).
Qed.

(** X19: the relay cannot get stuck.  In every state it reaches before
    the calling path has returned, the calling path can move, unless it
    stands at [Wait] with the counter at 1, and then the upload task,
    which nothing ever blocks, can move. *)
Theorem relay_never_stuck (sched : list action) (s : state) :
  exec sched init = Some s ->
  cpc s <> CReturned ->
  (exists r s', caller_step r s = Some s')
  \/ (cpc s = CWait /\ readFinished s = 1
      /\ exists r s', upload_step r s = Some s').
Proof.
  intros H Hpc. apply exec_Inv in H as [_ _ Hcoh _].
  destruct s as [pc u wg we re e1 e2 l]. cbn [cpc readFinished] in *.
  destruct pc, u; coherent_facts; try congruence;
    first [ left; exists None; eexists; reflexivity
          | right; split; [reflexivity|]; split; [reflexivity|];
            exists None; eexists; reflexivity ].
Qed.

Lemma caller_step_rank (r : option error) (s s' : state) :
  caller_step r s = Some s' ->
  (crank (cpc s) < crank (cpc s'))%nat /\ (urank (upc s) <= urank (upc s'))%nat.
Proof.
  destruct s as [pc u wg we re e1 e2 l]. intros H.
  destruct pc; cbn in H;
    repeat match type of H with
           | context [match ?x with _ => _ end] => destruct x
           | context [if ?b then _ else _] => destruct b
           end;
    try discriminate H; injection H as <-; cbn; lia.
Qed.

Lemma upload_step_rank (r : option error) (s s' : state) :
  upload_step r s = Some s' ->
  cpc s' = cpc s /\ (urank (upc s) < urank (upc s'))%nat.
Proof.
  destruct s as [pc u wg we re e1 e2 l]. intros H.
  destruct u; cbn in H;
    repeat match type of H with
           | context [match ?x with _ => _ end] => destruct x
           | context [if ?b then _ else _] => destruct b
           end;
    try discriminate H; injection H as <-; cbn; split; (reflexivity || lia).
Qed.

Lemma exec_ranks (sched : list action) :
  forall s s',
    exec sched s = Some s' ->
    (crank (cpc s) + count_actions Caller sched <= crank (cpc s'))%nat
    /\ (urank (upc s) + count_actions Upload sched <= urank (upc s'))%nat.
Proof.
  induction sched as [|[t r] rest IH]; intros s s' H; simpl in H.
  - injection H as <-. simpl. lia.
  - destruct t; simpl in H.
    + destruct (caller_step r s) as [s1|] eqn:E; [|discriminate H].
      apply caller_step_rank in E. apply IH in H. simpl. lia.
    + destruct (upload_step r s) as [s1|] eqn:E; [|discriminate H].
      apply upload_step_rank in E as [E1 E2]. apply IH in H. simpl.
      rewrite E1 in H. lia.
    + destruct s as [pc u wg we re e1 e2 l]. apply IH in H. simpl in *. lia.
Qed.

(** X20: the relay has no loop of its own: a schedule that can be run
    moves the calling path at most 12 times and the upload task at most
    7 times, whatever the copies and closes return; all waiting is
    inside the copies. *)
Theorem relay_steps_bounded (sched : list action) (s : state) :
  exec sched init = Some s ->
  (count_actions Caller sched <= 12)%nat
  /\ (count_actions Upload sched <= 7)%nat.
Proof.
  intros H. apply exec_ranks in H. simpl in H.
  assert (crank (cpc s) <= 12)%nat by (destruct (cpc s); simpl; lia).
  assert (urank (upc s) <= 7)%nat by (destruct (upc s); simpl; lia).
  lia.
Qed.

(** X21: every buffer taken from the pool is put back.  In every state
    that the relay reaches, each of the two tasks holds at most one
    buffer, a task that has ended holds none, and the idle guard never
    holds one. *)
Theorem buffers_returned (sched : list action) (s : state) :
  exec sched init = Some s ->
  (0 <= borrowed Caller (log s) <= 1)
  /\ (0 <= borrowed Upload (log s) <= 1)
  /\ (cpc s = CReturned -> borrowed Caller (log s) = 0)
  /\ (upc s = UFinished -> borrowed Upload (log s) = 0).
Proof.
  intros H. apply exec_Inv in H as [Hc Hu _ _].
  unfold borrowed. rewrite Hc, Hu.
  destruct s as [pc u wg we re e1 e2 l].
  unfold Relay.caller_hist, Relay.upload_hist.
  cbn [cpc upc writeErr readErr closeErrClient closeErrOut].
  repeat split.
  1, 2: destruct pc, we, e1, e2; cbn; lia.
  1, 2: destruct u, re; cbn; lia.
  - intros ->. destruct we, e1, e2; reflexivity.
  - intros ->. destruct re; reflexivity.
Qed.

(** X22: the upload task follows one script: it takes a buffer, copies
    from the client connection to the outbound connection, logs the
    error of the copy if there is one, signals completion, and only then
    puts the buffer back. *)
Theorem upload_follows_script (sched : list action) (s : state) :
  exec sched init = Some s ->
  ops_of Upload (log s)
    `prefix_of` upload_script clientConn connOutRaw timeout (readErr s)
  /\ (upc s = UFinished ->
      ops_of Upload (log s)
      = upload_script clientConn connOutRaw timeout (readErr s)).
Proof.
  intros H. apply exec_Inv in H as [_ Hu _ _]. rewrite Hu.
  destruct s as [pc u wg we re e1 e2 l].
  unfold Relay.upload_hist. cbn [upc readErr]. split.
  - exists (flat_map (upload_seg clientConn connOutRaw timeout re)
              (drop (urank u) upload_pcs)).
    rewrite <- flat_map_app, take_drop. destruct re; reflexivity.
  - intros ->. destruct re; reflexivity.
Qed.

Lemma exec_app (a b : list action) (s : state) :
  exec (a ++ b) s
  = match exec a s with
    | Some s' => exec b s'
    | None => None
    end.
Proof.
  revert s. induction a as [|x a IH]; intros s; simpl; [reflexivity|].
  destruct (step x s); [apply IH | reflexivity].
Qed.

(** From a state that satisfies the invariant the session can be run to
    the return of the calling path, in at most [n] moves when [n] bounds
    the control points still ahead. *)
Lemma can_finish_from (n : nat) :
  forall s,
    Inv s ->
    ((12 - crank (cpc s)) + (7 - urank (upc s)) <= n)%nat ->
    exists more s', exec more s = Some s' /\ cpc s' = CReturned.
Proof.
  induction n as [|n IH]; intros s HI Hn.
  - exists [], s. split; [reflexivity|].
    destruct (cpc s); simpl in Hn; try lia. reflexivity.
  - destruct (cpc s) eqn:Hpc;
      try (exists [], s; split; [reflexivity | exact Hpc]; fail).
    all: assert (cpc s <> CReturned) as Hnot by congruence.
    all: assert (crank (cpc s) <= 12)%nat as Hb1
        by (destruct (cpc s); simpl; lia).
    all: assert (urank (upc s) <= 7)%nat as Hb2
        by (destruct (upc s); simpl; lia).
    all: rewrite <- Hpc in Hn.
    all: destruct (relay_no_deadlock clientConn connOutRaw timeout s HI Hnot)
        as [(r & s1 & E)|(r & s1 & E)].
    all: try (pose proof (caller_step_rank r s s1 E) as [R1 R2];
              assert (crank (cpc s1) <= 12)%nat
                by (destruct (cpc s1); simpl; lia);
              destruct (IH s1) as (more & s' & Hm & Hr);
              [ exact (Inv_step clientConn connOutRaw timeout
                         (Run Caller r) s s1 HI E)
              | lia
              | exists (Run Caller r :: more), s'; simpl;
                change (Relay.caller_step clientConn connOutRaw timeout r s)
                  with (caller_step r s);
                rewrite E; auto ]).
    all: pose proof (upload_step_rank r s s1 E) as [R1 R2];
         assert (urank (upc s1) <= 7)%nat by (destruct (upc s1); simpl; lia);
         destruct (IH s1) as (more & s' & Hm & Hr);
         [ exact (Inv_step clientConn connOutRaw timeout
                    (Run Upload r) s s1 HI E)
         | rewrite R1; lia
         | exists (Run Upload r :: more), s'; simpl;
           change (Relay.upload_step clientConn connOutRaw timeout r s)
             with (upload_step r s);
           rewrite E; auto ].
Qed.

(** X23: no state that the relay reaches is a dead end: whatever has
    happened so far, the schedule can be continued so that the calling
    path runs through the teardown and returns. *)
Theorem relay_can_always_finish (sched : list action) (s : state) :
  exec sched init = Some s ->
  exists more s',
    exec (sched ++ more) init = Some s' /\ cpc s' = CReturned.
Proof.
  intros H.
  destruct (can_finish_from 19 s (exec_Inv sched s H)) as (more & s' & Hm & Hr).
  - assert (crank (cpc s) <= 12)%nat by (destruct (cpc s); simpl; lia).
    assert (urank (upc s) <= 7)%nat by (destruct (upc s); simpl; lia).
    lia.
  - exists more, s'. rewrite exec_app, H. auto.
Qed.

End RelayMore.

Lemma wait_group_counter_witness :
  exists s,
    Relay.exec (NetConn 1) (NetConn 2) Second
      [Run Caller None; Run Caller None; Run Upload None] init = Some s
    /\ (readFinished s = 0 \/ readFinished s = 1)
    /\ (readFinished s = 1 <->
        In (Caller, WgAdd 1) (log s) /\ ~ In (Upload, WgDone) (log s)).
Proof.
  eexists. split; [reflexivity|].
  apply (wait_group_counter (NetConn 1) (NetConn 2) Second
           [Run Caller None; Run Caller None; Run Upload None]).
  reflexivity.
Defined.

Lemma relay_never_stuck_witness :
  exists s,
    Relay.exec (NetConn 1) (NetConn 2) Second
      [Run Caller None; Run Caller None; Run Caller None; Run Caller None;
       Run Caller None] init = Some s
    /\ ((exists r s',
            Relay.caller_step (NetConn 1) (NetConn 2) Second r s = Some s')
        \/ (cpc s = CWait /\ readFinished s = 1
            /\ exists r s',
                 Relay.upload_step (NetConn 1) (NetConn 2) Second r s
                 = Some s')).
Proof.
  eexists. split; [reflexivity|].
  apply (relay_never_stuck (NetConn 1) (NetConn 2) Second
           [Run Caller None; Run Caller None; Run Caller None;
            Run Caller None; Run Caller None]).
  - reflexivity.
  - discriminate.
Defined.

Lemma relay_steps_bounded_witness :
  (count_actions Caller (full_schedule (Some (IOError 3)) None None None)
   <= 12)%nat
  /\ (count_actions Upload (full_schedule (Some (IOError 3)) None None None)
      <= 7)%nat.
Proof.
  eapply (relay_steps_bounded (NetConn 1) (NetConn 2) Second
            (full_schedule (Some (IOError 3)) None None None)).
  reflexivity.
Defined.

Lemma buffers_returned_witness :
  exists s,
    Relay.exec (NetConn 1) (NetConn 2) Second
      (full_schedule None (Some (IOError 4)) None None) init = Some s
    /\ (0 <= borrowed Caller (log s) <= 1)
    /\ (0 <= borrowed Upload (log s) <= 1)
    /\ (cpc s = CReturned -> borrowed Caller (log s) = 0)
    /\ (upc s = UFinished -> borrowed Upload (log s) = 0).
Proof.
  eexists. split; [reflexivity|].
  apply (buffers_returned (NetConn 1) (NetConn 2) Second
           (full_schedule None (Some (IOError 4)) None None)).
  reflexivity.
Defined.

Lemma upload_follows_script_witness :
  exists s,
    Relay.exec (NetConn 1) (NetConn 2) Second
      (full_schedule (Some (IOError 3)) None None None) init = Some s
    /\ ops_of Upload (log s)
         `prefix_of` upload_script (NetConn 1) (NetConn 2) Second (readErr s)
    /\ (upc s = UFinished ->
        ops_of Upload (log s)
        = upload_script (NetConn 1) (NetConn 2) Second (readErr s)).
Proof.
  eexists. split; [reflexivity|].
  apply (upload_follows_script (NetConn 1) (NetConn 2) Second
           (full_schedule (Some (IOError 3)) None None None)).
  reflexivity.
Defined.

Lemma relay_can_always_finish_witness :
  exists more s',
    Relay.exec (NetConn 1) (NetConn 2) Second
      ([Run Caller None; Run Caller None; Run IdleGuard None] ++ more) init
    = Some s'
    /\ cpc s' = CReturned.
Proof.
  eapply (relay_can_always_finish (NetConn 1) (NetConn 2) Second
            [Run Caller None; Run Caller None; Run IdleGuard None]).
  reflexivity.
Defined.

(** ** From the configuration string to the decision *)

(** When the loop of [AllowedPortsFromCSV] succeeds, the list it leaves
    holds the value of each field, in order. *)
Lemma csv_loop_values (fields : list string) (ports : list Z) :
  csv_loop fields O (replicate (length fields) 0) = Ok ports ->
  Forall2 (fun fld p => strconv.Atoi fld = Ok p) fields ports.
Proof.
  intros H.
  assert (exists vs, Forall2 (fun fld p => strconv.Atoi fld = Ok p) fields vs)
    as [vs Hvs].
  { assert (~ Exists (fun fld => forall v, strconv.Atoi fld <> Ok v) fields)
      as Hno.
    { intros HE.
      destruct (csv_loop_err fields O (replicate (length fields) 0) HE)
        as [e He].
      congruence. }
    clear H. induction fields as [|fld rest IH].
    - exists []. constructor.
    - destruct (strconv.Atoi fld) as [v|e] eqn:Ev.
      + destruct IH as [vs Hvs].
        { intros HE. apply Hno. right. exact HE. }
        exists (v :: vs). constructor; assumption.
      + exfalso. apply Hno. left. intros v Hv. congruence. }
  rewrite (csv_loop_ok fields O _ vs Hvs) in H
    by (rewrite length_replicate; simpl; lia).
  simpl in H. rewrite drop_ge in H by (rewrite length_replicate; lia).
  rewrite app_nil_r in H. injection H as <-. exact Hvs.
Qed.

(** X24: configuration and authorization together: a handler that [New]
    builds from a string of allowed ports authorizes the target made of
    a plain host, a colon and a port text that converts to an integer
    exactly when some field of the string converts to the same
    integer. *)
Theorem csv_then_decision (n : Handler) (csv : string)
    (h : HTTPConnectHandler) (w : ResponseWriter)
    (method host portString : string) (port : Z) :
  New (Some n) [AllowedPortsFromCSV csv] = (Some h, None) ->
  plain host = true ->
  strconv.Atoi portString = Ok port ->
  (snd (portAllowed h w (mkRequest method (target host portString))) = true
   <-> exists fld, In fld (strings.Split csv ",")
                   /\ strconv.Atoi fld = Ok port).
Proof.
  intros HN Hh Ha. simpl in HN. unfold AllowedPortsFromCSV in HN.
  destruct (csv_loop _ _ _) as [ports|e] eqn:Hl; [|discriminate HN].
  injection HN as <-.
  pose proof (csv_loop_values _ _ Hl) as HF.
  assert (ports <> []) as Hne.
  { pose proof (Split_length csv ",") as HS.
    apply Forall2_length in HF. destruct ports; [simpl in HF; lia|discriminate]. }
  assert (In port ports <->
          exists fld, In fld (strings.Split csv ",")
                      /\ strconv.Atoi fld = Ok port) as Hin.
  { clear -HF. induction HF as [|fld p flds ps Hp _ IH]; simpl.
    - split; [tauto | intros (? & [] & _)].
    - rewrite IH. split.
      + intros [<-|(fld' & ? & ?)]; eauto.
      + intros (fld' & [<-|?] & Hv); [left; congruence | right; eauto]. }
  rewrite <- Hin.
  unfold portAllowed. cbn [allowedPorts Host].
  destruct ports as [|p ps]; [congruence|].
  rewrite (SplitHostPort_plain host portString Hh (Atoi_plain _ _ Ha)), Ha.
  rewrite <- port_in_In.
  destruct (port_in port (p :: ps)); simpl; split; congruence.
Qed.

Lemma csv_then_decision_witness :
  snd (portAllowed (mkHandler 7%nat 0 [443; 8443]) (sample_writer None)
         (mkRequest "CONNECT" (target "example.com" "8443"))) = true
  <-> exists fld, In fld (strings.Split "443,8443" ",")
                  /\ strconv.Atoi fld = Ok 8443.
Proof.
  apply (csv_then_decision 7%nat "443,8443" (mkHandler 7%nat 0 [443; 8443])
           (sample_writer None) "CONNECT" "example.com" "8443" 8443
           eq_refl eq_refl eq_refl).
Defined.

Lemma tunnel_iff_witness :
  Method (connect_to "example.com:443") = "CONNECT"
  /\ snd (portAllowed (sample_handler [443])
            (sample_writer (Some (Ok (NetConn 1))))
            (connect_to "example.com:443")) = true
  /\ Hijacker (sample_writer (Some (Ok (NetConn 1)))) = Some (Ok (NetConn 1))
  /\ DialTimeout (sample_world (Ok (NetConn 2))) "tcp"
       (Host (connect_to "example.com:443")) 10000000000 = Ok (NetConn 2)
  /\ 30000000000 = idleTimeout (sample_handler [443])
  /\ [OpEnter "proxy_https";
      checking (sample_handler [443]) (connect_to "example.com:443");
      Respond 200 None; HijackCall (Ok (NetConn 1));
      DialCall "tcp" "example.com:443" 10000000000 (Ok (NetConn 2));
      IdleTimingWrap (NetConn 2) 30000000000]
     = (received (sample_world (Ok (NetConn 2)))
          (connect_to "example.com:443")
        ++ fst (portAllowed (sample_handler [443])
                  (sample_writer (Some (Ok (NetConn 1))))
                  (connect_to "example.com:443")))
       ++ [Respond 200 None; HijackCall (Ok (NetConn 1));
           DialCall "tcp" (Host (connect_to "example.com:443")) 10000000000
             (Ok (NetConn 2));
           IdleTimingWrap (NetConn 2) 30000000000].
Proof.
  apply (proj1 (tunnel_iff (sample_handler [443])
                  (sample_world (Ok (NetConn 2)))
                  (sample_writer (Some (Ok (NetConn 1))))
                  (connect_to "example.com:443") _
                  (NetConn 1) (NetConn 2) 30000000000)).
  reflexivity.
Defined.

